(** * idb-readable-stream: a readable stream over an IndexedDB object store

    A shallow embedding of [src/index.js].  The adapter is an event-driven
    state machine: [idbReadableStream] validates its arguments and opens the
    first cursor, after which the browser calls one of the registered
    handlers ([req.onsuccess], the one-shot ['drain'] listener, [tx.onabort],
    [tx.onerror]).  Each handler is a function on the adapter state; what the
    browser and the stream buffer decide (does [write] accept the record,
    does [cursor.continue] throw) comes with the event. *)

From Stdlib Require Import ZArith Lia Bool.
From Stdlib Require OrderedTypeEx.
From stdpp Require Import base option list sorting strings gmap.

Local Open Scope Z_scope.
Local Open Scope string_scope.
Local Open Scope list_scope.

(** ** JavaScript values, as far as the adapter looks at them *)

(** IndexedDB keys.  The model has number keys (integers) and string keys;
    in the IndexedDB order every number sorts before every string. *)
Inductive key : Type :=
| KNum (n : Z)
| KStr (s : string).

#[global] Instance key_eq_dec : EqDecision key.
Proof. solve_decision. Defined.

(** What a record of the object store holds next to its key. *)
Definition payload : Type := string.

Record record : Type := Rec { rec_key : key; rec_value : payload }.

#[global] Instance record_eq_dec : EqDecision record.
Proof. solve_decision. Defined.

(** Errors are looked at through their [name] only ([err.name]). *)
Record error : Type := Err { err_name : string; err_message : string }.

#[global] Instance error_eq_dec : EqDecision error.
Proof. solve_decision. Defined.

Definition TypeError (msg : string) : error := Err "TypeError" msg.
Definition TransactionInactiveError : error :=
  Err "TransactionInactiveError" "The transaction is not active".
Definition NotFoundError : error :=
  Err "NotFoundError" "One of the specified object stores was not found".

(** The four cursor directions of IndexedDB. *)
Inductive direction : Type := next | nextunique | prev | prevunique.

#[global] Instance direction_eq_dec : EqDecision direction.
Proof. solve_decision. Defined.

(** [opts.range]: the four properties the adapter reads from it. *)
Record range : Type := Range {
  lower : option key;
  upper : option key;
  lowerOpen : bool;
  upperOpen : bool
}.

(** [{}], the range used when [opts.range] is absent. *)
Definition empty_range : range := Range None None false false.

(** The options object; a property that is absent is [None]. *)
Record options : Type := Options {
  opt_range : option range;
  opt_direction : option direction;
  opt_reopenOnTimeout : option bool
}.

Definition no_options : options := Options None None None.

(** [xtend(a, b)]: a fresh object with the properties of [a] overwritten by
    those of [b]. *)
Definition xtend (a b : options) : options :=
  Options (from_option Some (opt_range a) (opt_range b))
          (from_option Some (opt_direction a) (opt_direction b))
          (from_option Some (opt_reopenOnTimeout a) (opt_reopenOnTimeout b)).

(** An object store: its records in ascending key order. *)
Definition objectStore : Type := list record.

(** An IndexedDB database: its object stores by name. *)
Definition database : Type := gmap string objectStore.

Inductive object : Type :=
| ODatabase (d : gmap string objectStore)
| OOptions (o : options)
| OPlain.

Inductive value : Type :=
| VUndefined
| VNull
| VBoolean (b : bool)
| VNumber (n : Z)
| VString (s : string)
| VFunction
| VObject (o : object).

(** The [typeof] operator; [typeof null] is ["object"]. *)
Definition typeof (v : value) : string :=
  match v with
  | VUndefined => "undefined"
  | VNull => "object"
  | VBoolean _ => "boolean"
  | VNumber _ => "number"
  | VString _ => "string"
  | VFunction => "function"
  | VObject _ => "object"
  end.

(** [v == null] holds of [null] and [undefined] only. *)
Definition loosely_null (v : value) : bool :=
  match v with
  | VUndefined | VNull => true
  | _ => false
  end.

(** Truthiness of a key: the number 0 and the empty string are falsy. *)
Definition key_truthy (k : key) : bool :=
  match k with
  | KNum n => negb (n =? 0)%Z
  | KStr s => negb (String.eqb s "")
  end.

(** Truthiness of a value that is a key, [undefined] or [null]. *)
Definition truthy (k : option key) : bool :=
  match k with
  | Some k => key_truthy k
  | None => false
  end.

(** ** Key order and key ranges (IndexedDB side) *)

Definition key_compare (a b : key) : comparison :=
  match a, b with
  | KNum x, KNum y => (x ?= y)%Z
  | KNum _, KStr _ => Lt
  | KStr _, KNum _ => Gt
  | KStr s, KStr t => String.compare s t
  end.

Definition key_ltb (a b : key) : bool :=
  match key_compare a b with Lt => true | _ => false end.

Definition key_leb (a b : key) : bool :=
  match key_compare a b with Gt => false | _ => true end.

(** Key ranges, as the values that [IDBKeyRange.bound],
    [IDBKeyRange.lowerBound] and [IDBKeyRange.upperBound] return; which keys
    a range holds is [in_keyRange]. *)
Inductive IDBKeyRange : Type :=
| bound (l u : key) (lOpen uOpen : bool)
| lowerBound (l : key) (lOpen : bool)
| upperBound (u : key) (uOpen : bool).

#[global] Instance IDBKeyRange_eq_dec : EqDecision IDBKeyRange.
Proof. solve_decision. Defined.

Definition above (l : key) (lOpen : bool) (k : key) : bool :=
  if lOpen then key_ltb l k else key_leb l k.

Definition below (u : key) (uOpen : bool) (k : key) : bool :=
  if uOpen then key_ltb k u else key_leb k u.

(** [undefined] as a key range is the whole store. *)
Definition in_keyRange (kr : option IDBKeyRange) (k : key) : bool :=
  match kr with
  | None => true
  | Some (bound l u lo uo) => above l lo k && below u uo k
  | Some (lowerBound l lo) => above l lo k
  | Some (upperBound u uo) => below u uo k
  end.

Definition DataError : error :=
  Err "DataError" "The parameter is not a valid key range".

(** [IDBKeyRange.bound(lower, upper, lowerOpen, upperOpen)]: it throws a
    [DataError] when [lower] is greater than [upper], and when the two are
    equal and one of the bounds is open; [IDBKeyRange.lowerBound] and
    [IDBKeyRange.upperBound] take any key. *)
Definition IDBKeyRange_bound (l u : key) (lOpen uOpen : bool)
    : error + IDBKeyRange :=
  match key_compare l u with
  | Lt => inr (bound l u lOpen uOpen)
  | Eq => if lOpen || uOpen then inl DataError
          else inr (bound l u lOpen uOpen)
  | Gt => inl DataError
  end.

Definition backward (d : direction) : bool :=
  match d with
  | prev | prevunique => true
  | next | nextunique => false
  end.

(** [store.openCursor(keyRange, direction)] on a store that does not change:
    the records the cursor will visit, in visiting order.  An absent
    direction is ["next"].  Keys of an object store are unique, so the
    unique directions visit what the plain ones do. *)
Definition openCursor (s : objectStore) (kr : option IDBKeyRange)
    (d : option direction) : list record :=
  let hits := List.filter (fun r => in_keyRange kr (rec_key r)) s in
  if backward (default next d) then rev hits else hits.

(** ** The adapter *)

(** What the consumer of the stream is told: a record (['data']), ['end'] or
    ['error']. *)
Inductive signal : Type :=
| Data (r : record)
| End
| Error (e : error).

#[global] Instance signal_eq_dec : EqDecision signal.
Proof. solve_decision. Defined.

(** What the adapter asks of IndexedDB. *)
Inductive call : Type :=
| Transaction (name : string)
| OpenCursor (kr : option IDBKeyRange) (d : option direction)
| Continue.

#[global] Instance call_eq_dec : EqDecision call.
Proof. solve_decision. Defined.

(** The callback the adapter is waiting for.  A cursor is the list of the
    records it still has to visit; [AwaitSuccess c] is a request that will
    land on the head of [c] (or on [null] when [c] is empty), [AwaitDrain c]
    is the one-shot ['drain'] listener holding a cursor that sits on the head
    of [c]. *)
Inductive pending : Type :=
| AwaitSuccess (c : list record)
| AwaitDrain (c : list record)
| Idle.

Record adapter : Type := Adapter {
  db : value;
  storeName : string;
  opts : options;
  lastIteratedKey : option key;
  cursorsOpened : nat;
  emitted : list signal;
  calls : list call;
  uncaught : list error;
  waiting : pending
}.

Definition set_lastIteratedKey (k : option key) (a : adapter) : adapter :=
  Adapter (db a) (storeName a) (opts a) k (cursorsOpened a) (emitted a)
          (calls a) (uncaught a) (waiting a).

Definition set_waiting (p : pending) (a : adapter) : adapter :=
  Adapter (db a) (storeName a) (opts a) (lastIteratedKey a) (cursorsOpened a)
          (emitted a) (calls a) (uncaught a) p.

(** [transformer.write], [transformer.end] and [transformer.emit('error')]
    as seen by the consumer. *)
Definition emit (s : signal) (a : adapter) : adapter :=
  Adapter (db a) (storeName a) (opts a) (lastIteratedKey a) (cursorsOpened a)
          (emitted a ++ [s]) (calls a) (uncaught a) (waiting a).

Definition log (c : call) (a : adapter) : adapter :=
  Adapter (db a) (storeName a) (opts a) (lastIteratedKey a) (cursorsOpened a)
          (emitted a) (calls a ++ [c]) (uncaught a) (waiting a).

Definition incr_cursorsOpened (a : adapter) : adapter :=
  Adapter (db a) (storeName a) (opts a) (lastIteratedKey a)
          (S (cursorsOpened a)) (emitted a) (calls a) (uncaught a) (waiting a).

(** An exception that leaves a handler.  It is thrown out of [proceed],
    after [continue] has thrown: no request is in flight and the drain
    listener, if it was the caller, has been used up, so nothing is
    pending. *)
Definition escape (e : error) (a : adapter) : adapter :=
  Adapter (db a) (storeName a) (opts a) (lastIteratedKey a) (cursorsOpened a)
          (emitted a) (calls a) (uncaught a ++ [e]) Idle.

(** [db.transaction(storeName, 'readonly')] followed by
    [tx.objectStore(storeName)]. *)
Definition db_transaction (d : value) (name : string) : error + objectStore :=
  match d with
  | VObject (ODatabase stores) =>
      match stores !! name with
      | Some s => inr s
      | None => inl NotFoundError
      end
  | VNull | VUndefined =>
      inl (TypeError "Cannot read properties of null (reading 'transaction')")
  | _ => inl (TypeError "db.transaction is not a function")
  end.

(** The bounds [startCursor] computes before it builds the key range
    (lines 67-84): [(lower, upper, lowerOpen, upperOpen)]. *)
Definition narrowed (o : options) (last : option key)
    : option key * option key * bool * bool :=
  let direction := default next (opt_direction o) in
  let range := default empty_range (opt_range o) in
  let lower := lower range in
  let upper := upper range in
  let lowerOpen := lowerOpen range in
  let upperOpen := upperOpen range in
  if truthy last then
    if decide (direction = next) then (last, upper, true, upperOpen)
    else (lower, last, lowerOpen, true)
  else (lower, upper, lowerOpen, upperOpen).

(** A bound that passes an [if (bound)] test. *)
Definition if_truthy (k : option key) : option key :=
  match k with
  | Some k => if key_truthy k then Some k else None
  | None => None
  end.

(** Lines 86-92: the key range built from the bounds, [undefined] ([None])
    when neither bound is truthy; [inl] is the [DataError] that
    [IDBKeyRange.bound] throws. *)
Definition keyRange_of (b : option key * option key * bool * bool)
    : error + option IDBKeyRange :=
  let '(lower, upper, lowerOpen, upperOpen) := b in
  match if_truthy lower, if_truthy upper with
  | Some l, Some u =>
      match IDBKeyRange_bound l u lowerOpen upperOpen with
      | inl e => inl e
      | inr kr => inr (Some kr)
      end
  | Some l, None => inr (Some (lowerBound l lowerOpen))
  | None, Some u => inr (Some (upperBound u upperOpen))
  | None, None => inr None
  end.

(** The key range [startCursor] builds when the last iterated key is
    [last]. *)
Definition effective_keyRange (o : options) (last : option key)
    : error + option IDBKeyRange :=
  keyRange_of (narrowed o last).

(** [startCursor()]; [inl] is an exception thrown on the way: by
    [IDBKeyRange.bound] first, by [db.transaction] after it. *)
Definition startCursor (a : adapter) : error + adapter :=
  match effective_keyRange (opts a) (lastIteratedKey a) with
  | inl e => inl e
  | inr keyRange =>
      match db_transaction (db a) (storeName a) with
      | inl e => inl e
      | inr store =>
          let a := log (Transaction (storeName a)) a in
          let a := incr_cursorsOpened a in
          let a := log (OpenCursor keyRange (opt_direction (opts a))) a in
          inr (set_waiting
                 (AwaitSuccess
                    (openCursor store keyRange (opt_direction (opts a))))
                 a)
      end
  end.

(** What [cursor.continue()] does: it returns, or it throws. *)
Inductive advance : Type :=
| Advanced
| Raised (e : error).

(** [opts.reopenOnTimeout] as a condition. *)
Definition reopenOnTimeout (a : adapter) : bool :=
  default false (opt_reopenOnTimeout (opts a)).

(** [proceed(cursor)], for a cursor that sits on the head of [c]. *)
Definition proceed (c : list record) (adv : advance) (a : adapter) : adapter :=
  let a := log Continue a in
  match adv with
  | Advanced => set_waiting (AwaitSuccess (tail c)) a
  | Raised err =>
      if String.eqb (err_name err) "TransactionInactiveError"
         && reopenOnTimeout a
      then match startCursor a with
           | inr a' => a'
           | inl e => escape e a
           end
      else set_waiting Idle (emit (Error err) a)
  end.

(** [req.onsuccess]: [accepted] is what [transformer.write] returns. *)
Definition onsuccess (c : list record) (accepted : bool) (adv : advance)
    (a : adapter) : adapter :=
  match c with
  | r :: _ =>
      let a := set_lastIteratedKey (Some (rec_key r)) a in
      let a := emit (Data r) a in
      if accepted then proceed c adv a
      else set_waiting (AwaitDrain c) a
  | [] => set_waiting Idle (emit End a)
  end.

(** [tx.onabort] and [tx.onerror]; [e] is [tx.error]. *)
Definition onabort (e : error) (a : adapter) : adapter := emit (Error e) a.
Definition onerror (e : error) (a : adapter) : adapter := emit (Error e) a.

(** The events the adapter has handlers for. *)
Inductive event : Type :=
| Success (accepted : bool) (adv : advance)
| Drain (adv : advance)
| TxAbort (e : error)
| TxError (e : error).

(** One event.  A success needs a request in flight and a drain needs the
    listener; without them nothing runs. *)
Definition step (a : adapter) (e : event) : adapter :=
  match e with
  | Success accepted adv =>
      match waiting a with
      | AwaitSuccess c => onsuccess c accepted adv a
      | _ => a
      end
  | Drain adv =>
      match waiting a with
      | AwaitDrain c => proceed c adv a
      | _ => a
      end
  | TxAbort err => onabort err a
  | TxError err => onerror err a
  end.

Definition run (a : adapter) (es : list event) : adapter :=
  fold_left step es a.

(** What a call of [idbReadableStream] comes to: an exception, with the
    IndexedDB calls made before it, or the stream. *)
Inductive result : Type :=
| Thrown (e : error) (made : list call)
| Returned (a : adapter).

(** The options the caller gave, read off the [opts] argument once it has
    passed the checks; an object of another kind has none of the three
    properties. *)
Definition given_options (opts : value) : options :=
  match opts with
  | VObject (OOptions g) => g
  | _ => no_options
  end.

(** The closure state when [startCursor] is first called. *)
Definition fresh (db : value) (name : string) (o : options) : adapter :=
  Adapter db name o None 0 [] [] [] Idle.

(** [idbReadableStream(db, storeName, opts)]. *)
Definition idbReadableStream (db storeName opts : value) : result :=
  if negb (String.eqb (typeof db) "object")
  then Thrown (TypeError "db must be an object") []
  else if negb (String.eqb (typeof storeName) "string")
  then Thrown (TypeError "storeName must be a string") []
  else
    let opts := if loosely_null opts then VObject (OOptions no_options)
                else opts in
    if negb (String.eqb (typeof opts) "object")
    then Thrown (TypeError "opts must be an object") []
    else
      let name := match storeName with VString s => s | _ => "" end in
      let opts := xtend (Options None None (Some true)) (given_options opts) in
      let a := fresh db name opts in
      match startCursor a with
      | inr a' => Returned a'
      | inl e => Thrown e (calls a)
      end.

(** ** Observations on a run *)

Definition datum (s : signal) : option record :=
  match s with
  | Data r => Some r
  | _ => None
  end.

(** The records the consumer has been handed, oldest first. *)
Definition records (a : adapter) : list record := omap datum (emitted a).

Definition keys_emitted (a : adapter) : list key := rec_key <$> records a.

Definition is_error (s : signal) : bool :=
  match s with
  | Error _ => true
  | _ => false
  end.

(** How many ['error'] signals the consumer has seen. *)
Definition errors (a : adapter) : nat :=
  length (List.filter is_error (emitted a)).

Definition is_continue (c : call) : bool :=
  match c with
  | Continue => true
  | _ => false
  end.

(** How many times [cursor.continue()] has been called. *)
Definition advances (a : adapter) : nat :=
  length (List.filter is_continue (calls a)).

(** The key ranges of the cursors opened so far, oldest first. *)
Definition ranges_opened (a : adapter) : list (option IDBKeyRange) :=
  omap (fun c => match c with OpenCursor kr _ => Some kr | _ => None end)
       (calls a).

(** The stream is over at [a]: whatever happens next, the consumer gets no
    further record and no cursor is opened. *)
Definition stream_over (a : adapter) : Prop :=
  forall es, records (run a es) = records a
             /\ cursorsOpened (run a es) = cursorsOpened a.

(** An event that is not the drain signal. *)
Definition not_drain (e : event) : Prop :=
  match e with
  | Drain _ => False
  | _ => True
  end.

(** An event of a run without timeouts and failures: a success or a drain
    whose [continue], if called, returns. *)
Definition calm (e : event) : Prop :=
  match e with
  | Success _ Advanced | Drain Advanced => True
  | _ => False
  end.

(** The handler of [ev] at [a] calls [continue], and the call throws
    [err]. *)
Definition advance_raises (a : adapter) (ev : event) (err : error) : Prop :=
  match ev, waiting a with
  | Success true (Raised e), AwaitSuccess (_ :: _) => e = err
  | Drain (Raised e), AwaitDrain _ => e = err
  | _, _ => False
  end.

(** The record the handler of [ev] writes to the stream at [a], if any. *)
Definition pushed_by (a : adapter) (ev : event) : list record :=
  match ev, waiting a with
  | Success _ _, AwaitSuccess (r :: _) => [r]
  | _, _ => []
  end.




(** Where a run without timeouts and failures stands, [full] being the
    records of the one cursor it opens: the consumer has a front part of
    [full], the cursor has the rest, and the end comes after all of it. *)
Definition calm_inv (full : list record) (a : adapter) : Prop :=
  cursorsOpened a = 1%nat
  /\ match waiting a with
     | AwaitSuccess c =>
         exists done, emitted a = Data <$> done /\ done ++ c = full
     | AwaitDrain c =>
         exists done,
           emitted a = Data <$> done /\ c <> [] /\ done ++ tail c = full
     | Idle => emitted a = (Data <$> full) ++ [End]
     end.

(** A store is well formed when its records are in strictly ascending key
    order (so no key occurs twice). *)
Definition store_sorted (s : objectStore) : Prop :=
  StronglySorted (fun r1 r2 => key_ltb (rec_key r1) (rec_key r2) = true) s.

(** [x] is visited before [y] by a cursor that runs backward ([bw]) or
    forward. *)
Definition before (bw : bool) (x y : key) : bool :=
  if bw then key_ltb y x else key_ltb x y.

(** Where a run over the store [s] with the options [o] stands, [kr0]
    being the key range of the first cursor: the consumer has a front part
    [done] of what the first cursor visits, the last iterated key is that of
    the last record of [done], the cursor in use has the rest to visit, and
    the end has been signalled only if there is no rest. *)
Definition resume_inv (s : objectStore) (o : options)
    (kr0 : option IDBKeyRange) (a : adapter) : Prop :=
  db_transaction (db a) (storeName a) = inr s
  /\ opts a = o
  /\ exists done rest,
       openCursor s kr0 (opt_direction o) = done ++ rest
       /\ records a = done
       /\ lastIteratedKey a = rec_key <$> last done
       /\ match waiting a with
          | AwaitSuccess c => c = rest /\ End ∉ emitted a
          | AwaitDrain c =>
              (exists r, last done = Some r /\ c = r :: rest)
              /\ End ∉ emitted a
          | Idle => End ∈ emitted a -> rest = []
          end.

(** The example store of the end-to-end scenario: keys 1 to 5. *)
Definition items (v1 v2 v3 v4 v5 : payload) : objectStore :=
  [Rec (KNum 1) v1; Rec (KNum 2) v2; Rec (KNum 3) v3; Rec (KNum 4) v4;
   Rec (KNum 5) v5].

Definition items_db (v1 v2 v3 v4 v5 : payload) : value :=
  VObject (ODatabase {[ "items" := items v1 v2 v3 v4 v5 ]}).

(** The stream over [items_db] with the given options, if it is returned. *)
Definition items_stream (o : options) : option adapter :=
  match idbReadableStream (items_db "a" "b" "c" "d" "e") (VString "items")
                          (VObject (OOptions o)) with
  | Returned a => Some a
  | Thrown _ _ => None
  end.

(** The stream over a database whose store ["items"] is [s], if it is
    returned. *)
Definition store_stream (s : objectStore) (o : options) : option adapter :=
  match idbReadableStream (VObject (ODatabase {[ "items" := s ]}))
                          (VString "items") (VObject (OOptions o)) with
  | Returned a => Some a
  | Thrown _ _ => None
  end.

(** The keys between the bounds [startCursor] has computed, where a bound
    that is not truthy does not bound: the keys of the range that
    [keyRange_of] builds from them, when it builds one. *)
Definition in_bounds (b : option key * option key * bool * bool) (k : key)
    : bool :=
  let '(lower, upper, lowerOpen, upperOpen) := b in
  match if_truthy lower with Some l => above l lowerOpen k | None => true end
  && match if_truthy upper with Some u => below u upperOpen k | None => true end.

(** The keys a configured range holds, read as IndexedDB reads a key range:
    a bound that is present bounds, whatever its value. *)
Definition in_range (r : range) (k : key) : bool :=
  match lower r with Some l => above l (lowerOpen r) k | None => true end
  && match upper r with Some u => below u (upperOpen r) k | None => true end.

(** How many transactions have been opened. *)
Definition is_transaction (c : call) : bool :=
  match c with
  | Transaction _ => true
  | _ => false
  end.

Definition transactions (a : adapter) : nat :=
  length (List.filter is_transaction (calls a)).

(** How many times the end has been signalled. *)
Definition is_end (s : signal) : bool :=
  match s with
  | End => true
  | _ => false
  end.

Definition ends (a : adapter) : nat :=
  length (List.filter is_end (emitted a)).

(** A call that is made on the store [name] with the direction [d]: a
    transaction on another store, or a cursor with another direction, is
    not. *)
Definition call_on (name : string) (d : option direction) (c : call) : Prop :=
  match c with
  | Transaction n => n = name
  | OpenCursor _ d' => d' = d
  | Continue => True
  end.

(** The cursor the adapter holds or waits for, as the records it has yet to
    land on. *)
Definition cursor_ahead (a : adapter) : list record :=
  match waiting a with
  | AwaitSuccess c => c
  | AwaitDrain c => tail c
  | Idle => []
  end.

(** One is owed while the drain listener waits: a record has been written
    whose [continue] is still to be called. *)
Definition owed (a : adapter) : nat :=
  match waiting a with
  | AwaitDrain _ => 1
  | _ => 0
  end.

(** The store name [idbReadableStream] uses, read off its second
    argument. *)
Definition name_of (storeName : value) : string :=
  match storeName with
  | VString s => s
  | _ => ""
  end.

(** The books of a stream, kept by every handler: [_cursorsOpened] counts
    the transactions and the cursors opened, all on the configured store and
    with the configured direction; [continue] has been called once for each
    record written, but for the one a drain listener waits on; no cursor is
    re-opened without a [continue] before it; the last iterated key is the
    key of the last record written; the end is signalled at most once, and
    nothing is pending after it. *)
Definition accounted (a : adapter) : Prop :=
  cursorsOpened a = transactions a
  /\ cursorsOpened a = length (ranges_opened a)
  /\ (1 <= cursorsOpened a <= 1 + advances a)%nat
  /\ Forall (call_on (storeName a) (opt_direction (opts a))) (calls a)
  /\ (advances a + owed a = length (records a))%nat
  /\ lastIteratedKey a = rec_key <$> last (records a)
  /\ (ends a <= 1)%nat
  /\ (waiting a <> Idle -> ends a = 0%nat).

(** A record of the store [s] whose key is in [kr0], the range of the first
    cursor. *)
Definition in_first_range (s : objectStore) (kr0 : option IDBKeyRange)
    (r : record) : Prop :=
  r ∈ s /\ in_keyRange kr0 (rec_key r) = true.

(** The stream over [s] with options [o] has kept to the first range: what
    it has written, what its cursor has yet to visit, and the last iterated
    key. *)
Definition within (s : objectStore) (o : options)
    (kr0 : option IDBKeyRange) (a : adapter) : Prop :=
  db_transaction (db a) (storeName a) = inr s
  /\ opts a = o
  /\ Forall (in_first_range s kr0) (records a)
  /\ match waiting a with
     | AwaitSuccess c | AwaitDrain c => Forall (in_first_range s kr0) c
     | Idle => True
     end
  /\ forall K, lastIteratedKey a = Some K -> in_keyRange kr0 K = true.

(** Where a stream that does not re-open stands, [full] being the records
    of its one cursor: what is written and what the cursor has yet to visit
    make up [full] as long as something is pending, and what is written is a
    front part of [full], all of it after the end. *)
Definition one_cursor (full : list record) (a : adapter) : Prop :=
  cursorsOpened a = 1%nat
  /\ reopenOnTimeout a = false
  /\ records a `prefix_of` full
  /\ (waiting a <> Idle ->
      records a ++ cursor_ahead a = full /\ End ∉ emitted a)
  /\ (End ∈ emitted a -> records a = full).

(** * Properties *)

(** ** Construction *)

Lemma typeof_object_inv (v : value) :
  typeof v = "object" -> v = VNull \/ exists o, v = VObject o.
Proof. destruct v; simpl; try discriminate; eauto. Qed.

Lemma typeof_string_inv (v : value) :
  typeof v = "string" -> exists s, v = VString s.
Proof. destruct v; simpl; try discriminate; eauto. Qed.

Lemma xtend_default_options (g : options) :
  xtend (Options None None (Some true)) g
  = Options (opt_range g) (opt_direction g)
            (Some (default true (opt_reopenOnTimeout g))).
Proof.
  unfold xtend. simpl.
  destruct (opt_range g), (opt_direction g), (opt_reopenOnTimeout g);
    reflexivity.
Qed.

Lemma given_options_nullish (ov : value) :
  given_options (if loosely_null ov then VObject (OOptions no_options) else ov)
  = given_options ov.
Proof. destruct ov; reflexivity. Qed.

Lemma effective_keyRange_xtend (g : options) (last : option key) :
  effective_keyRange (xtend (Options None None (Some true)) g) last
  = effective_keyRange g last.
Proof. rewrite xtend_default_options. reflexivity. Qed.

(** C7. A call whose [db] is not of type object, or whose [storeName] is not
    of type string, throws a [TypeError] out of [idbReadableStream] itself,
    and no call to IndexedDB (so no transaction) has been made by then.  The
    [db] check comes first. *)
Theorem construction_rejects_bad_arguments (db storeName opts : value) :
  typeof db <> "object" \/ typeof storeName <> "string" ->
  idbReadableStream db storeName opts =
    Thrown (TypeError (if decide (typeof db = "object")
                       then "storeName must be a string"
                       else "db must be an object")) [].
Proof.
  intros Hbad. unfold idbReadableStream.
  destruct (String.eqb_spec (typeof db) "object") as [Hdb | Hdb]; simpl.
  - destruct Hbad as [Hbad | Hname]; [contradiction |].
    destruct (String.eqb_spec (typeof storeName) "string") as [Hs | _];
      [contradiction | simpl].
    destruct (decide (typeof db = "object")); [reflexivity | contradiction].
  - destruct (decide (typeof db = "object")); [contradiction | reflexivity].
Qed.

Lemma construction_rejects_bad_arguments_witness :
  idbReadableStream (VNumber 3) (VString "items") VUndefined =
    Thrown (TypeError "db must be an object") []
  /\ idbReadableStream (items_db "a" "b" "c" "d" "e") (VNumber 7) VUndefined =
    Thrown (TypeError "storeName must be a string") [].
Proof.
  split.
  - apply (construction_rejects_bad_arguments (VNumber 3)).
    left. simpl. discriminate.
  - apply (construction_rejects_bad_arguments (items_db "a" "b" "c" "d" "e")
             (VNumber 7)).
    right. simpl. discriminate.
Defined.

(** C10. [null] passes the [db] check, since [typeof null] is ["object"]: the
    error of that check is thrown for no [db] of type object, [null]
    included.  With a string [storeName] and an [opts] that passes its own
    check, a [null] handle gets as far as the first [startCursor] and fails
    there, with no transaction opened: [db.transaction] throws on [null],
    and where the key range is built (as it is from any key range IndexedDB
    hands out, and without one) that is the exception the caller gets. *)
Theorem null_handle_fails_at_first_transaction (name : string) (opts : value) :
  loosely_null opts = true \/ typeof opts = "object" ->
  typeof VNull = "object"
  /\ (forall db sn o made,
        idbReadableStream db sn o = Thrown (TypeError "db must be an object") made ->
        typeof db <> "object" /\ db <> VNull)
  /\ exists e,
       startCursor (fresh VNull name
                      (xtend (Options None None (Some true))
                             (given_options
                                (if loosely_null opts
                                 then VObject (OOptions no_options)
                                 else opts)))) = inl e
       /\ idbReadableStream VNull (VString name) opts = Thrown e []
       /\ e <> TypeError "db must be an object"
       /\ (exists e', db_transaction VNull name = inl e')
       /\ forall kr,
            effective_keyRange (given_options opts) None = inr kr ->
            db_transaction VNull name = inl e.
Proof.
  intros Hopts. split; [reflexivity |]. split.
  - intros db sn o made H. unfold idbReadableStream in H.
    destruct (String.eqb_spec (typeof db) "object") as [Hdb | Hdb]; simpl in H.
    + exfalso.
      destruct (String.eqb_spec (typeof sn) "string") as [Hsn | Hsn];
        simpl in H; [| discriminate].
      destruct (String.eqb (typeof (if loosely_null o
                                    then VObject (OOptions no_options) else o))
                           "object"); simpl in H; [| discriminate].
      unfold startCursor in H.
      destruct (effective_keyRange _ _) as [e0 | kr] eqn:Hkr.
      { injection H as He _. subst e0.
        unfold effective_keyRange, keyRange_of in Hkr.
        destruct (narrowed _ _) as [[[l u] lo] uo].
        destruct (if_truthy l), (if_truthy u); try discriminate.
        unfold IDBKeyRange_bound in Hkr.
        destruct (key_compare _ _); try destruct (lo || uo);
          discriminate. }
      destruct (db_transaction _ _) as [e | st] eqn:Htx; [| discriminate].
      injection H as He _. subst e.
      apply typeof_object_inv in Hdb as [-> | [ob ->]]; simpl in Htx.
      * discriminate.
      * destruct ob; simpl in Htx; [destruct (d !! _) |..]; discriminate.
    + split; [assumption |]. intros ->. apply Hdb. reflexivity.
  - assert (Hstart : forall o,
              exists e, startCursor (fresh VNull name o) = inl e
                        /\ e <> TypeError "db must be an object"
                        /\ forall kr, effective_keyRange o None = inr kr ->
                                      db_transaction VNull name = inl e).
    { intros o. unfold startCursor. simpl.
      destruct (effective_keyRange o None) as [e0 | kr] eqn:Hkr.
      - exists e0. split; [reflexivity |]. split; [| discriminate].
        unfold effective_keyRange, keyRange_of in Hkr.
        destruct (narrowed _ _) as [[[l u] lo] uo].
        destruct (if_truthy l), (if_truthy u); try discriminate.
        unfold IDBKeyRange_bound in Hkr.
        destruct (key_compare _ _); try destruct (lo || uo);
          try discriminate; injection Hkr as <-; discriminate.
      - eexists. split; [reflexivity |]. split; [discriminate |].
        intros _ _. reflexivity. }
    destruct (Hstart (xtend (Options None None (Some true))
                        (given_options
                           (if loosely_null opts
                            then VObject (OOptions no_options) else opts))))
      as (e & Hs & Hne & Htx).
    exists e. split; [exact Hs |].
    split; [| split; [exact Hne |]; split; [eexists; reflexivity |]].
    + assert (Ho : typeof (if loosely_null opts
                           then VObject (OOptions no_options) else opts)
                   = "object").
      { destruct Hopts as [Hn | Ho]; [rewrite Hn; reflexivity |].
        destruct (loosely_null opts); [reflexivity | exact Ho]. }
      unfold idbReadableStream.
      change (String.eqb (typeof VNull) "object") with true.
      change (String.eqb (typeof (VString name)) "string") with true.
      rewrite Ho. cbv zeta. rewrite Hs. reflexivity.
    + intros kr Hkr. apply (Htx kr).
      rewrite effective_keyRange_xtend, given_options_nullish. exact Hkr.
Qed.

Lemma null_handle_fails_at_first_transaction_witness :
  exists e, idbReadableStream VNull (VString "items") VUndefined = Thrown e []
            /\ e <> TypeError "db must be an object".
Proof.
  destruct (null_handle_fails_at_first_transaction "items" VUndefined)
    as (_ & _ & e & _ & Hthrown & Hne & _).
  - left. reflexivity.
  - exists e. split; [exact Hthrown | exact Hne].
Defined.

(** ** The range of a (re)opened cursor *)

(** What a call of [startCursor] that does not throw leaves behind. *)
Lemma startCursor_inr (a a' : adapter) :
  startCursor a = inr a' ->
  exists kr store,
    effective_keyRange (opts a) (lastIteratedKey a) = inr kr
    /\ db_transaction (db a) (storeName a) = inr store
    /\ a' = Adapter (db a) (storeName a) (opts a) (lastIteratedKey a)
              (S (cursorsOpened a)) (emitted a)
              ((calls a ++ [Transaction (storeName a)])
                 ++ [OpenCursor kr (opt_direction (opts a))])
              (uncaught a)
              (AwaitSuccess (openCursor store kr (opt_direction (opts a)))).
Proof.
  unfold startCursor. intros H.
  destruct (effective_keyRange (opts a) (lastIteratedKey a)) as [e | kr];
    [discriminate |].
  destruct (db_transaction (db a) (storeName a)) as [e | store];
    [discriminate |].
  exists kr, store. split; [reflexivity |]. split; [reflexivity |].
  injection H as <-. reflexivity.
Qed.

(** What a call of [startCursor] that throws leaves behind: nothing. *)
Lemma startCursor_inl (a : adapter) (e : error) :
  startCursor a = inl e ->
  effective_keyRange (opts a) (lastIteratedKey a) = inl e
  \/ exists kr,
       effective_keyRange (opts a) (lastIteratedKey a) = inr kr
       /\ db_transaction (db a) (storeName a) = inl e.
Proof.
  unfold startCursor. intros H.
  destruct (effective_keyRange (opts a) (lastIteratedKey a)) as [e0 | kr].
  - left. injection H as ->. reflexivity.
  - right. exists kr. split; [reflexivity |].
    destruct (db_transaction (db a) (storeName a)); [| discriminate].
    injection H as ->. reflexivity.
Qed.

(** [IDBKeyRange.bound] throws nothing but a [DataError]. *)
Lemma keyRange_of_inl (b : option key * option key * bool * bool) (e : error) :
  keyRange_of b = inl e -> e = DataError.
Proof.
  destruct b as [[[l u] lo] uo]. unfold keyRange_of.
  destruct (if_truthy l), (if_truthy u); try discriminate.
  unfold IDBKeyRange_bound.
  destruct (key_compare _ _); try destruct (lo || uo); try discriminate;
    intros H; injection H as <-; reflexivity.
Qed.

(** The range that is built holds the keys between the truthy bounds. *)
Lemma keyRange_of_inr (b : option key * option key * bool * bool)
    (kr : option IDBKeyRange) (k : key) :
  keyRange_of b = inr kr -> in_keyRange kr k = in_bounds b k.
Proof.
  destruct b as [[[l u] lo] uo]. unfold keyRange_of, in_bounds.
  destruct (if_truthy l) as [l' |], (if_truthy u) as [u' |].
  - unfold IDBKeyRange_bound.
    destruct (key_compare l' u'); try destruct (lo || uo); try discriminate;
      intros H; injection H as <-; reflexivity.
  - intros H; injection H as <-. simpl. rewrite andb_true_r. reflexivity.
  - intros H; injection H as <-. reflexivity.
  - intros H; injection H as <-. reflexivity.
Qed.

(** A call that passes the three checks, builds the first key range and
    finds the store returns the stream, which stands thus. *)
Lemma construction_returns (dbv sn ov : value) (kr : option IDBKeyRange)
    (s : objectStore) :
  typeof dbv = "object" ->
  typeof sn = "string" ->
  loosely_null ov = true \/ typeof ov = "object" ->
  effective_keyRange (given_options ov) None = inr kr ->
  db_transaction dbv (name_of sn) = inr s ->
  let o := xtend (Options None None (Some true)) (given_options ov) in
  idbReadableStream dbv sn ov
  = Returned (Adapter dbv (name_of sn) o None 1 []
                [Transaction (name_of sn); OpenCursor kr (opt_direction o)]
                [] (AwaitSuccess (openCursor s kr (opt_direction o)))).
Proof.
  intros Hdb Hsn Ho Hkr Htx o.
  assert (Ho' : typeof (if loosely_null ov
                        then VObject (OOptions no_options) else ov)
                = "object").
  { destruct Ho as [Hn | Ho]; [rewrite Hn; reflexivity |].
    destruct (loosely_null ov); [reflexivity | exact Ho]. }
  unfold idbReadableStream. rewrite Hdb, Hsn, Ho'.
  change (negb (String.eqb "object" "object")) with false.
  change (negb (String.eqb "string" "string")) with false.
  cbv iota zeta. fold (name_of sn). rewrite given_options_nullish. fold o.
  unfold startCursor, fresh.
  assert (Hkr' : effective_keyRange o None = inr kr).
  { unfold o. rewrite effective_keyRange_xtend. exact Hkr. }
  cbn [opts lastIteratedKey db storeName]. rewrite Hkr', Htx. reflexivity.
Qed.

(** The checks a call has passed when a stream is returned, and the stream as
    it is returned. *)
Lemma returned_shape (dbv sn ov : value) (a0 : adapter) :
  idbReadableStream dbv sn ov = Returned a0 ->
  typeof dbv = "object"
  /\ typeof sn = "string"
  /\ (loosely_null ov = true \/ typeof ov = "object")
  /\ exists kr s,
       effective_keyRange (given_options ov) None = inr kr
       /\ db_transaction dbv (name_of sn) = inr s
       /\ let o := xtend (Options None None (Some true)) (given_options ov) in
          a0 = Adapter dbv (name_of sn) o None 1 []
                 [Transaction (name_of sn); OpenCursor kr (opt_direction o)]
                 [] (AwaitSuccess (openCursor s kr (opt_direction o))).
Proof.
  unfold idbReadableStream. intros Hret.
  destruct (String.eqb_spec (typeof dbv) "object") as [Hdb | Hdb];
    simpl in Hret; [| discriminate].
  destruct (String.eqb_spec (typeof sn) "string") as [Hsn | Hsn];
    simpl in Hret; [| discriminate].
  destruct (String.eqb_spec
              (typeof (if loosely_null ov
                       then VObject (OOptions no_options) else ov))
              "object") as [Ho | Ho]; simpl in Hret; [| discriminate].
  destruct (startCursor _) as [e | a'] eqn:Hs; [discriminate |].
  injection Hret as <-.
  apply startCursor_inr in Hs as (kr & s & Hkr & Htx & ->).
  rewrite given_options_nullish in *.
  split; [exact Hdb |]. split; [exact Hsn |]. split.
  { destruct (loosely_null ov); [left; reflexivity | right; exact Ho]. }
  exists kr, s. unfold fresh in Hkr, Htx.
  cbn [opts lastIteratedKey db storeName] in Hkr, Htx.
  rewrite effective_keyRange_xtend in Hkr.
  split; [exact Hkr |]. split; [exact Htx |]. reflexivity.
Qed.

Lemma ranges_opened_app (a : adapter) (cs : list call) (b : adapter) :
  calls b = calls a ++ cs ->
  ranges_opened b =
    ranges_opened a
      ++ omap (fun c => match c with OpenCursor kr _ => Some kr | _ => None end)
              cs.
Proof. intros H. unfold ranges_opened. rewrite H. apply omap_app. Qed.

(** The first opening uses the bounds as configured. *)
Lemma narrowed_first (o : options) :
  narrowed o None =
    let r := default empty_range (opt_range o) in
    (lower r, upper r, lowerOpen r, upperOpen r).
Proof. reflexivity. Qed.

(** Direction ["next"] (or none given), after a truthy key [K]: the lower
    bound becomes [K], open; the upper side is as configured. *)
Lemma narrowed_next (o : options) (K : key) :
  default next (opt_direction o) = next ->
  key_truthy K = true ->
  narrowed o (Some K) =
    let r := default empty_range (opt_range o) in
    (Some K, upper r, true, upperOpen r).
Proof.
  intros Hd HK. unfold narrowed. simpl. rewrite HK, Hd.
  destruct (decide (next = next)); [reflexivity | contradiction].
Qed.

(** Any other direction, ["nextunique"] included, after a truthy key [K]:
    the upper bound becomes [K], open; the lower side is as configured. *)
Lemma narrowed_not_next (o : options) (K : key) :
  default next (opt_direction o) <> next ->
  key_truthy K = true ->
  narrowed o (Some K) =
    let r := default empty_range (opt_range o) in
    (lower r, Some K, lowerOpen r, true).
Proof.
  intros Hd HK. unfold narrowed. simpl. rewrite HK.
  destruct (decide (default next (opt_direction o) = next));
    [contradiction | reflexivity].
Qed.

(** C2, at direction ["nextunique"].  After key 3 the bounds computed for the
    re-opening have 3 as the open upper bound and no lower bound, and the
    cursor that is re-opened after a timeout at key 3 of the store with keys
    1 to 5 is opened over the keys below 3. *)
Theorem reopen_nextunique_narrows_upper_side :
  let o := Options None (Some nextunique) None in
  narrowed o (Some (KNum 3)) = (None, Some (KNum 3), false, true)
  /\ effective_keyRange o (Some (KNum 3))
     = inr (Some (upperBound (KNum 3) true))
  /\ exists a,
       items_stream o = Some a
       /\ ranges_opened
            (run a [Success true Advanced; Success true Advanced;
                    Success true (Raised TransactionInactiveError)])
          = [None; Some (upperBound (KNum 3) true)].
Proof.
  simpl. split; [reflexivity |]. split; [reflexivity |].
  eexists. split; [vm_compute; reflexivity |]. vm_compute. reflexivity.
Qed.

(** C9. A falsy key (the number 0, the empty string) fails the [if] tests of
    [startCursor].  As the last iterated key it leaves the bounds of a
    re-opening as they are configured, so the cursor is re-opened over the
    range of the first opening; as a configured bound it is not passed to
    any [IDBKeyRange] constructor, and the range built has no bound on that
    side. *)
Theorem falsy_key_is_no_bound (o : options) (k : key) :
  key_truthy k = false ->
  narrowed o (Some k) =
    (let r := default empty_range (opt_range o) in
     (lower r, upper r, lowerOpen r, upperOpen r))
  /\ effective_keyRange o (Some k) = effective_keyRange o None
  /\ (forall a a',
        opts a = o -> lastIteratedKey a = Some k -> startCursor a = inr a' ->
        exists kr,
          effective_keyRange o None = inr kr
          /\ ranges_opened a' = ranges_opened a ++ [kr])
  /\ (forall u lo uo,
        keyRange_of (Some k, u, lo, uo) =
          inr ((fun u' => upperBound u' uo) <$> if_truthy u))
  /\ (forall l lo uo,
        keyRange_of (l, Some k, lo, uo) =
          inr ((fun l' => lowerBound l' lo) <$> if_truthy l))
  /\ (forall lo uo,
        keyRange_of (Some k, None, lo, uo) = inr None
        /\ keyRange_of (None, Some k, lo, uo) = inr None)
  /\ (forall x, in_keyRange None x = true).
Proof.
  intros Hk.
  assert (Hn : narrowed o (Some k) = narrowed o None).
  { unfold narrowed. simpl. rewrite Hk. reflexivity. }
  split; [exact Hn |].
  split; [unfold effective_keyRange; rewrite Hn; reflexivity |].
  split.
  { intros a a' Ho Hlast Hstart.
    apply startCursor_inr in Hstart as (kr & store & Hkr & _ & ->).
    exists kr. split.
    - rewrite Ho, Hlast in Hkr. unfold effective_keyRange in *.
      rewrite Hn in Hkr. exact Hkr.
    - erewrite ranges_opened_app by (simpl; rewrite <- app_assoc; reflexivity).
      reflexivity. }
  split.
  { intros u lo uo. unfold keyRange_of. simpl. rewrite Hk.
    destruct (if_truthy u); reflexivity. }
  split.
  { intros l lo uo. unfold keyRange_of. simpl. rewrite Hk.
    destruct (if_truthy l); reflexivity. }
  split; [| reflexivity].
  intros lo uo. unfold keyRange_of. simpl. rewrite Hk. split; reflexivity.
Qed.

Lemma falsy_key_is_no_bound_witness :
  effective_keyRange (Options (Some (Range (Some (KNum 0)) (Some (KNum 9)) true false))
                              None None)
                     (Some (KStr ""))
  = inr (Some (upperBound (KNum 9) false)).
Proof.
  destruct (falsy_key_is_no_bound
              (Options (Some (Range (Some (KNum 0)) (Some (KNum 9)) true false))
                       None None)
              (KStr "")) as (_ & -> & _).
  - reflexivity.
  - reflexivity.
Defined.

(** ** Handlers *)

(** The closure constants never change. *)
Lemma proceed_consts (c : list record) (adv : advance) (a : adapter) :
  db (proceed c adv a) = db a
  /\ storeName (proceed c adv a) = storeName a
  /\ opts (proceed c adv a) = opts a.
Proof.
  unfold proceed. destruct adv as [| err]; simpl; [auto |].
  destruct (_ && _); simpl; [| auto].
  unfold startCursor. simpl.
  destruct (effective_keyRange (opts a) (lastIteratedKey a)); simpl; [auto |].
  destruct (db_transaction (db a) (storeName a)); simpl; auto.
Qed.

Lemma step_consts (a : adapter) (ev : event) :
  db (step a ev) = db a
  /\ storeName (step a ev) = storeName a
  /\ opts (step a ev) = opts a.
Proof.
  destruct ev as [w adv | adv | e | e]; simpl; auto.
  - destruct (waiting a) as [c | c |]; auto.
    unfold onsuccess. destruct c as [| r c]; simpl; auto.
    destruct w; simpl; auto.
    apply (proceed_consts (r :: c) adv
             (emit (Data r) (set_lastIteratedKey (Some (rec_key r)) a))).
  - destruct (waiting a) as [c | c |]; auto. apply proceed_consts.
Qed.

Lemma run_app (a : adapter) (es es' : list event) :
  run a (es ++ es') = run (run a es) es'.
Proof. unfold run. apply fold_left_app. Qed.

Lemma run_consts (es : list event) (a : adapter) :
  db (run a es) = db a
  /\ storeName (run a es) = storeName a
  /\ opts (run a es) = opts a.
Proof.
  revert a. induction es as [| ev es IH]; intros a; simpl; [auto |].
  destruct (IH (step a ev)) as (-> & -> & ->). apply step_consts.
Qed.

(** A stream that was returned has a database with the store in it, for
    good. *)
Lemma returned_connected (dbv sn ov : value) (a0 : adapter) :
  idbReadableStream dbv sn ov = Returned a0 ->
  opts a0 = xtend (Options None None (Some true)) (given_options ov)
  /\ exists store, db_transaction (db a0) (storeName a0) = inr store.
Proof.
  unfold idbReadableStream. intros H.
  destruct (negb _); [discriminate |].
  destruct (negb _); [discriminate |].
  destruct (negb _) eqn:Ho; [discriminate |].
  destruct (startCursor _) as [e | a'] eqn:Hs; [discriminate |].
  injection H as <-.
  apply startCursor_inr in Hs as (kr & store & _ & Htx & ->). simpl in *.
  split; [| eauto].
  destruct ov; reflexivity.
Qed.

(** With nothing pending, successes and drains have no handler to run, and
    what the transaction handlers emit is no record. *)
Lemma idle_step (a : adapter) (ev : event) :
  waiting a = Idle ->
  waiting (step a ev) = Idle
  /\ records (step a ev) = records a
  /\ cursorsOpened (step a ev) = cursorsOpened a
  /\ calls (step a ev) = calls a.
Proof.
  intros Hw. destruct ev as [w adv | adv | e | e]; simpl.
  - rewrite Hw. auto.
  - rewrite Hw. auto.
  - unfold records. simpl. rewrite omap_app. simpl.
    rewrite app_nil_r. auto.
  - unfold records. simpl. rewrite omap_app. simpl.
    rewrite app_nil_r. auto.
Qed.

Lemma idle_run (es : list event) (a : adapter) :
  waiting a = Idle ->
  waiting (run a es) = Idle
  /\ records (run a es) = records a
  /\ cursorsOpened (run a es) = cursorsOpened a
  /\ calls (run a es) = calls a.
Proof.
  revert a. induction es as [| ev es IH]; intros a Hw; simpl; [auto |].
  destruct (idle_step a ev Hw) as (Hw' & <- & <- & <-).
  apply IH, Hw'.
Qed.

Lemma idle_stream_over (a : adapter) : waiting a = Idle -> stream_over a.
Proof.
  intros Hw es. destruct (idle_run es a Hw) as (_ & ? & ? & _). auto.
Qed.

(** What [proceed] does when [continue] throws the timeout error. *)
Lemma proceed_timeout (c : list record) (err : error) (a : adapter) :
  err_name err = "TransactionInactiveError" ->
  forall store, db_transaction (db a) (storeName a) = inr store ->
  proceed c (Raised err) a =
    if reopenOnTimeout a
    then match effective_keyRange (opts a) (lastIteratedKey a) with
         | inr kr =>
             Adapter (db a) (storeName a) (opts a) (lastIteratedKey a)
               (S (cursorsOpened a)) (emitted a)
               (((calls a ++ [Continue]) ++ [Transaction (storeName a)])
                  ++ [OpenCursor kr (opt_direction (opts a))])
               (uncaught a)
               (AwaitSuccess (openCursor store kr (opt_direction (opts a))))
         | inl e =>
             Adapter (db a) (storeName a) (opts a) (lastIteratedKey a)
               (cursorsOpened a) (emitted a) (calls a ++ [Continue])
               (uncaught a ++ [e]) Idle
         end
    else Adapter (db a) (storeName a) (opts a) (lastIteratedKey a)
           (cursorsOpened a) (emitted a ++ [Error err])
           (calls a ++ [Continue]) (uncaught a) Idle.
Proof.
  intros Hname store Htx. unfold proceed. rewrite Hname. simpl.
  assert (Hr : reopenOnTimeout (log Continue a) = reopenOnTimeout a)
    by reflexivity.
  rewrite Hr. destruct (reopenOnTimeout a); [| reflexivity].
  unfold startCursor. simpl.
  destruct (effective_keyRange (opts a) (lastIteratedKey a)); [reflexivity |].
  rewrite Htx. reflexivity.
Qed.

Lemma items_stream_returned (o : options) (a : adapter) :
  items_stream o = Some a ->
  idbReadableStream (items_db "a" "b" "c" "d" "e") (VString "items")
                    (VObject (OOptions o)) = Returned a.
Proof.
  unfold items_stream. destruct (idbReadableStream _ _ _); congruence.
Qed.

(** C3 fails on the code.  The store has the keys 1 to 5, the range is
    [IDBKeyRange.upperBound(5)], the direction is ["next"] and
    [reopenOnTimeout] is left at its default.  When [continue] throws the
    timeout error after key 5, [startCursor] calls
    [IDBKeyRange.bound(5, 5, true, false)], which throws a [DataError]: no
    cursor is opened, the exception leaves the handler, the consumer has the
    records of 1 to 5 and is never told the end. *)
Theorem reopen_after_last_key_of_range_throws :
  exists a0,
    store_stream (items "a" "b" "c" "d" "e")
                 (Options (Some (Range None (Some (KNum 5)) false false))
                          None None) = Some a0
    /\ reopenOnTimeout a0 = true
    /\ let a := run a0 [Success true Advanced; Success true Advanced;
                        Success true Advanced; Success true Advanced;
                        Success true (Raised TransactionInactiveError)] in
       effective_keyRange (opts a) (lastIteratedKey a) = inl DataError
       /\ cursorsOpened a = 1%nat
       /\ uncaught a = [DataError]
       /\ emitted a = [Data (Rec (KNum 1) "a"); Data (Rec (KNum 2) "b");
                       Data (Rec (KNum 3) "c"); Data (Rec (KNum 4) "d");
                       Data (Rec (KNum 5) "e")]
       /\ waiting a = Idle
       /\ stream_over a
       /\ forall es, End ∉ emitted (run a es).
Proof.
  eexists. split; [vm_compute; reflexivity |]. split; [reflexivity |].
  cbv zeta. split; [vm_compute; reflexivity |].
  split; [vm_compute; reflexivity |]. split; [vm_compute; reflexivity |].
  split; [vm_compute; reflexivity |].
  match goal with |- waiting ?a = _ /\ _ => set (a1 := a) end.
  assert (Hidle : waiting a1 = Idle) by (vm_compute; reflexivity).
  split; [exact Hidle |]. split; [apply idle_stream_over, Hidle |].
  assert (Hno : End ∉ emitted a1).
  { vm_compute. intros H.
    repeat (apply elem_of_cons in H as [H | H]; [discriminate |]).
    apply elem_of_nil in H. exact H. }
  clearbody a1. intros es. revert a1 Hidle Hno.
  induction es as [| ev es IH]; intros a Hw He; simpl; [exact He |].
  destruct (idle_step a ev Hw) as (Hw' & _).
  apply IH; [exact Hw' |].
  destruct ev as [w adv | adv | e | e]; simpl; rewrite ?Hw; try exact He;
    intros Hin; apply elem_of_app in Hin as [Hin | Hin];
    try exact (He Hin); apply list_elem_of_singleton in Hin; discriminate.
Qed.

(** X18. Where the timeout is handled as intended, and where it is not.
    Without a [reopenOnTimeout] among the options given, it is [true].
    When [continue] throws a [TransactionInactiveError]: if the option
    holds and the narrowed key range is built, a new cursor is opened over
    it (one more in [_cursorsOpened], a new request pending) and the
    consumer sees nothing but the record the handler had written; if the
    option holds and [IDBKeyRange.bound] throws, no cursor is opened, the
    exception leaves the handler and nothing is pending; if the option does
    not hold, the consumer sees the record followed by one ['error']
    carrying the exception, nothing is pending, and no record is written
    afterwards. *)
Theorem timeout_reopens_or_fails
    (dbv sn ov : value) (a0 : adapter) (es : list event) :
  idbReadableStream dbv sn ov = Returned a0 ->
  let a := run a0 es in
  reopenOnTimeout a = default true (opt_reopenOnTimeout (given_options ov))
  /\ forall ev err,
       advance_raises a ev err ->
       err_name err = "TransactionInactiveError" ->
       let a' := step a ev in
       if reopenOnTimeout a
       then match effective_keyRange (opts a) (lastIteratedKey a') with
            | inr kr =>
                emitted a' = emitted a ++ (Data <$> pushed_by a ev)
                /\ cursorsOpened a' = S (cursorsOpened a)
                /\ uncaught a' = uncaught a
                /\ exists store,
                     db_transaction (db a) (storeName a) = inr store
                     /\ waiting a' =
                          AwaitSuccess
                            (openCursor store kr (opt_direction (opts a)))
            | inl e =>
                emitted a' = emitted a ++ (Data <$> pushed_by a ev)
                /\ cursorsOpened a' = cursorsOpened a
                /\ uncaught a' = uncaught a ++ [e]
                /\ waiting a' = Idle
                /\ stream_over a'
            end
       else emitted a' = emitted a ++ (Data <$> pushed_by a ev) ++ [Error err]
            /\ errors a' = S (errors a)
            /\ cursorsOpened a' = cursorsOpened a
            /\ waiting a' = Idle
            /\ stream_over a'.
Proof.
  intros Hret a.
  destruct (returned_connected _ _ _ _ Hret) as (Hopts & store & Htx).
  destruct (run_consts es a0) as (Hdb & Hsn & Ho). fold a in Hdb, Hsn, Ho.
  split.
  { unfold reopenOnTimeout. rewrite Ho, Hopts. simpl.
    destruct (opt_reopenOnTimeout (given_options ov)); reflexivity. }
  intros ev err Hraise Hname a'.
  assert (Htx' : db_transaction (db a) (storeName a) = inr store)
    by (rewrite Hdb, Hsn; exact Htx).
  unfold advance_raises in Hraise. subst a'. unfold pushed_by, step.
  destruct ev as [w adv | adv | e | e]; try contradiction.
  - destruct w; [| contradiction].
    destruct adv as [| e]; [contradiction |].
    destruct (waiting a) as [[| r c] | c |] eqn:Hw; try contradiction.
    subst e. unfold onsuccess.
    set (b := emit (Data r) (set_lastIteratedKey (Some (rec_key r)) a)).
    assert (Hb : db_transaction (db b) (storeName b) = inr store) by exact Htx'.
    rewrite (proceed_timeout (r :: c) err b Hname store Hb).
    assert (Hrb : reopenOnTimeout b = reopenOnTimeout a) by reflexivity.
    rewrite Hrb. destruct (reopenOnTimeout a).
    + change (opts b) with (opts a).
      change (lastIteratedKey b) with (Some (rec_key r)).
      destruct (effective_keyRange (opts a) (Some (rec_key r))) as [e | kr]
        eqn:Hkr; simpl; rewrite Hkr.
      * split; [reflexivity |]. split; [reflexivity |].
        split; [reflexivity |]. split; [reflexivity |].
        apply idle_stream_over. reflexivity.
      * split; [reflexivity |]. split; [reflexivity |].
        split; [reflexivity |]. exists store. split; [exact Htx' |].
        reflexivity.
    + simpl. rewrite <- app_assoc.
      split; [reflexivity |]. split; [| split; [reflexivity |]].
      * unfold errors. simpl. rewrite !List.filter_app, !length_app. simpl. lia.
      * split; [reflexivity |]. apply idle_stream_over. reflexivity.
  - destruct adv as [| e]; [contradiction |].
    destruct (waiting a) as [c | c |] eqn:Hw; try contradiction.
    subst e.
    rewrite (proceed_timeout c err a Hname store Htx').
    destruct (reopenOnTimeout a).
    + destruct (effective_keyRange (opts a) (lastIteratedKey a)) as [e | kr]
        eqn:Hkr; simpl; rewrite Hkr, app_nil_r.
      * split; [reflexivity |]. split; [reflexivity |].
        split; [reflexivity |]. split; [reflexivity |].
        apply idle_stream_over. reflexivity.
      * split; [reflexivity |]. split; [reflexivity |].
        split; [reflexivity |]. exists store. split; [exact Htx' |].
        reflexivity.
    + simpl. split; [reflexivity |]. split; [| split; [reflexivity |]].
      * unfold errors. simpl. rewrite !List.filter_app, !length_app. simpl. lia.
      * split; [reflexivity |]. apply idle_stream_over. reflexivity.
Qed.

Lemma timeout_reopens_or_fails_witness :
  exists a0,
    items_stream no_options = Some a0
    /\ cursorsOpened
         (step (run a0 [Success true Advanced])
               (Success true (Raised TransactionInactiveError))) = 2%nat.
Proof.
  eexists. split; [vm_compute; reflexivity |].
  match goal with
  | |- cursorsOpened (step (run ?a0 ?es) ?ev) = _ =>
      destruct (timeout_reopens_or_fails
                  (items_db "a" "b" "c" "d" "e") (VString "items")
                  (VObject (OOptions no_options)) a0 es) as [Hdef H];
        [apply items_stream_returned; vm_compute; reflexivity |];
        specialize (H ev TransactionInactiveError)
  end.
  cbv zeta in H. rewrite Hdef in H. simpl default in H.
  cbv iota in H.
  match type of H with
  | _ -> _ -> match ?k with _ => _ end =>
      replace k with (@inr error _ (Some (lowerBound (KNum 2) true))) in H
        by (vm_compute; reflexivity)
  end.
  destruct H as (_ & Hc & _).
  - vm_compute. reflexivity.
  - reflexivity.
  - rewrite Hc. vm_compute. reflexivity.
Defined.

(** ** Transaction failures and error signals *)

(** C4, as stated, fails: an abort that arrives while the adapter waits for
    the drain signal is signalled, but the drain listener stays; when the
    buffer drains, [continue] throws on the dead transaction and, with
    [reopenOnTimeout], a cursor is re-opened and records follow the error. *)
Lemma tx_abort_does_not_end_stream :
  ~ (forall dbv sn ov a0 es ev e,
       idbReadableStream dbv sn ov = Returned a0 ->
       ev = TxAbort e \/ ev = TxError e ->
       emitted (step (run a0 es) ev) = emitted (run a0 es) ++ [Error e]
       /\ stream_over (step (run a0 es) ev)).
Proof.
  intros H.
  destruct (idbReadableStream (items_db "a" "b" "c" "d" "e") (VString "items")
                              VUndefined) as [err made | a0] eqn:Hret;
    [vm_compute in Hret; discriminate |].
  destruct (H _ _ _ a0 [Success false Advanced]
              (TxAbort (Err "AbortError" "")) (Err "AbortError" "") Hret)
    as [_ Hover]; [left; reflexivity |].
  destruct (Hover [Drain (Raised TransactionInactiveError);
                   Success true Advanced]) as [_ Hc].
  vm_compute in Hret. injection Hret as <-.
  vm_compute in Hc. discriminate.
Qed.

(** C4, amended.  The handlers of a transaction abort and of a transaction
    error emit one ['error'] carrying [tx.error] and do nothing else: no call
    to IndexedDB (no cursor opened, no advance), and what the adapter waits
    for is as before.  [reopenOnTimeout] is not looked at. *)
Theorem tx_failure_emits_error_only (a : adapter) (e : error) :
  step a (TxAbort e) = emit (Error e) a
  /\ step a (TxError e) = emit (Error e) a
  /\ emitted (emit (Error e) a) = emitted a ++ [Error e]
  /\ errors (emit (Error e) a) = S (errors a)
  /\ calls (emit (Error e) a) = calls a
  /\ cursorsOpened (emit (Error e) a) = cursorsOpened a
  /\ lastIteratedKey (emit (Error e) a) = lastIteratedKey a
  /\ waiting (emit (Error e) a) = waiting a.
Proof.
  repeat split.
  unfold errors. simpl. rewrite List.filter_app, length_app. simpl. lia.
Qed.








(** ** Backpressure *)

Lemma advances_app (a b : adapter) (cs : list call) :
  calls b = calls a ++ cs ->
  advances b = (advances a + length (List.filter is_continue cs))%nat.
Proof.
  intros H. unfold advances. rewrite H, List.filter_app, length_app.
  reflexivity.
Qed.

(** [proceed] calls [continue] once, whatever comes of it, and leaves no
    drain listener behind. *)
Lemma proceed_advances (c : list record) (adv : advance) (a : adapter) :
  advances (proceed c adv a) = S (advances a)
  /\ forall c', waiting (proceed c adv a) <> AwaitDrain c'.
Proof.
  unfold proceed. destruct adv as [| err]; simpl.
  - split; [| discriminate].
    erewrite advances_app by reflexivity. simpl. lia.
  - destruct (_ && _); simpl.
    + unfold startCursor. simpl.
      destruct (effective_keyRange (opts a) (lastIteratedKey a))
        as [e0 | kr]; simpl.
      { split; [| discriminate].
        erewrite advances_app by reflexivity. simpl. lia. }
      destruct (db_transaction (db a) (storeName a)) as [e | store]; simpl.
      * split; [| discriminate].
        erewrite advances_app by reflexivity. simpl. lia.
      * split; [| discriminate].
        erewrite advances_app
          by (simpl; rewrite <- !app_assoc; reflexivity).
        simpl. lia.
    + split; [| discriminate].
      erewrite advances_app by reflexivity. simpl. lia.
Qed.

(** While the drain listener waits, no other event makes the adapter call
    IndexedDB, and the listener stays. *)
Lemma await_drain_run (es : list event) (a : adapter) (c : list record) :
  waiting a = AwaitDrain c ->
  Forall not_drain es ->
  calls (run a es) = calls a /\ waiting (run a es) = AwaitDrain c.
Proof.
  revert a. induction es as [| ev es IH]; intros a Hw Hes; simpl; [auto |].
  inversion Hes as [| ? ? Hev Hes']; subst.
  assert (H1 : calls (step a ev) = calls a
               /\ waiting (step a ev) = AwaitDrain c).
  { destruct ev as [w adv | adv | e | e]; simpl in *.
    - rewrite Hw. auto.
    - contradiction.
    - auto.
    - auto. }
  destruct H1 as [Hc Hw1].
  destruct (IH (step a ev) Hw1 Hes') as [-> ->]. auto.
Qed.

(** C5. At a success that lands on a record: if [write] accepts the record,
    [continue] is called at once; if it does not, [continue] is not called
    then, nor by anything that happens before the drain signal, however long
    that takes, and the drain signal makes the adapter call it exactly once
    (a second drain signal finds no listener). *)
Theorem backpressure_respected (a : adapter) (r : record) (c : list record) :
  waiting a = AwaitSuccess (r :: c) ->
  (forall adv, advances (step a (Success true adv)) = S (advances a))
  /\ forall adv es,
       Forall not_drain es ->
       let a1 := run (step a (Success false adv)) es in
       advances (step a (Success false adv)) = advances a
       /\ advances a1 = advances a
       /\ waiting a1 = AwaitDrain (r :: c)
       /\ forall adv',
            advances (step a1 (Drain adv')) = S (advances a)
            /\ forall adv'',
                 step (step a1 (Drain adv')) (Drain adv'')
                 = step a1 (Drain adv').
Proof.
  intros Hw. split.
  - intros adv. simpl. rewrite Hw. simpl.
    destruct (proceed_advances (r :: c) adv
                (emit (Data r) (set_lastIteratedKey (Some (rec_key r)) a)))
      as [-> _].
    reflexivity.
  - intros adv es Hes a1.
    assert (H0 : step a (Success false adv)
                 = set_waiting (AwaitDrain (r :: c))
                     (emit (Data r)
                        (set_lastIteratedKey (Some (rec_key r)) a))).
    { simpl. rewrite Hw. reflexivity. }
    destruct (await_drain_run es (step a (Success false adv)) (r :: c))
      as [Hc Hw1]; [rewrite H0; reflexivity | exact Hes |].
    fold a1 in Hc, Hw1.
    assert (Ha1 : advances a1 = advances a).
    { unfold advances. rewrite Hc, H0. reflexivity. }
    split; [rewrite H0; reflexivity |].
    split; [exact Ha1 |]. split; [exact Hw1 |].
    intros adv'. simpl. rewrite Hw1.
    destruct (proceed_advances (r :: c) adv' a1) as [Hadv Hnd].
    split; [rewrite Hadv, Ha1; reflexivity |].
    intros adv''.
    destruct (waiting (proceed (r :: c) adv' a1)) as [c' | c' |] eqn:Hp;
      [reflexivity | | reflexivity].
    exfalso. exact (Hnd c' eq_refl).
Qed.

Lemma backpressure_respected_witness :
  exists a0,
    items_stream no_options = Some a0
    /\ advances (run (step a0 (Success false Advanced))
                     [TxError (Err "UnknownError" "");
                      Success true Advanced]) = 0%nat
    /\ advances (step (run (step a0 (Success false Advanced))
                           [TxError (Err "UnknownError" "");
                            Success true Advanced])
                      (Drain Advanced)) = 1%nat.
Proof.
  eexists. split; [vm_compute; reflexivity |].
  match goal with
  | |- advances (run (step ?a0 _) ?es) = _ /\ _ =>
      destruct (backpressure_respected a0 (Rec (KNum 1) "a")
                  [Rec (KNum 2) "b"; Rec (KNum 3) "c"; Rec (KNum 4) "d";
                   Rec (KNum 5) "e"])
        as [_ H]; [reflexivity |];
        destruct (H Advanced es) as (_ & H1 & _ & H2)
  end.
  - repeat constructor.
  - split.
    + rewrite H1. reflexivity.
    + destruct (H2 Advanced) as [-> _]. reflexivity.
Defined.

(** ** Runs without timeouts *)

Lemma calm_step (full : list record) (a : adapter) (ev : event) :
  calm ev -> calm_inv full a -> calm_inv full (step a ev).
Proof.
  intros Hev [Hn Hinv]. unfold calm_inv.
  destruct ev as [w [| err] | [| err] | e | e]; simpl in Hev; try contradiction;
    simpl.
  - destruct (waiting a) as [[| r c] | c |] eqn:Hw; simpl.
    + destruct Hinv as (done & Hem & Hfull). split; [exact Hn |].
      rewrite Hem. rewrite app_nil_r in Hfull. subst done. reflexivity.
    + destruct Hinv as (done & Hem & Hfull).
      destruct w; simpl; (split; [exact Hn |]).
      * exists (done ++ [r]). rewrite Hem, fmap_app, <- app_assoc. auto.
      * exists (done ++ [r]). rewrite Hem, fmap_app, <- app_assoc.
        split; [reflexivity |]. split; [discriminate | exact Hfull].
    + rewrite Hw. auto.
    + rewrite Hw. auto.
  - destruct (waiting a) as [c | c |] eqn:Hw; simpl.
    + rewrite Hw. auto.
    + destruct Hinv as (done & Hem & Hc & Hfull). split; [exact Hn |].
      exists done. auto.
    + rewrite Hw. auto.
Qed.

Lemma calm_run (full : list record) (es : list event) (a : adapter) :
  Forall calm es -> calm_inv full a -> calm_inv full (run a es).
Proof.
  revert a. induction es as [| ev es IH]; intros a Hes Hinv; simpl; [auto |].
  inversion Hes; subst. apply IH; [assumption |].
  apply calm_step; assumption.
Qed.

(** Without timeouts and failures, whatever the store, the range and the
    direction, and whenever the buffer fills and drains: one cursor is
    opened, the consumer gets the records of that cursor in cursor order,
    and the end comes after the last of them. *)
Lemma calm_stream (dbv sn ov : value) (a0 : adapter) (es : list event) :
  idbReadableStream dbv sn ov = Returned a0 ->
  Forall calm es ->
  exists kr store,
    effective_keyRange (opts a0) None = inr kr
    /\ db_transaction (db a0) (storeName a0) = inr store
    /\ calm_inv (openCursor store kr (opt_direction (opts a0))) (run a0 es).
Proof.
  intros Hret Hes.
  destruct (returned_shape _ _ _ _ Hret) as (_ & _ & _ & kr & s & Hkr & Htx & Ha0).
  cbv zeta in Ha0. subst a0. cbn [opts db storeName].
  exists kr, s. split; [rewrite effective_keyRange_xtend; exact Hkr |].
  split; [exact Htx |].
  apply calm_run; [exact Hes |].
  split; [reflexivity |]. simpl. exists []. auto.
Qed.

(** C8. The store [items] has the keys 1 to 5; no range is given and the
    direction is ["next"] (given or by default).  Then the stream is
    returned; six successes in a row, each record accepted and each
    [continue] returning, hand the consumer the records of 1, 2, 3, 4, 5 in
    this order and then the end; and every run without timeouts and failures
    that has come to rest, however the buffer filled and drained on the way,
    has handed over these signals and no other, with [_cursorsOpened] at
    one. *)
Theorem items_end_to_end (v1 v2 v3 v4 v5 : payload) (o : options) :
  opt_range o = None ->
  default next (opt_direction o) = next ->
  exists a0,
    idbReadableStream (items_db v1 v2 v3 v4 v5) (VString "items")
                      (VObject (OOptions o)) = Returned a0
    /\ (let a := run a0 (replicate 6 (Success true Advanced)) in
        emitted a = [Data (Rec (KNum 1) v1); Data (Rec (KNum 2) v2);
                     Data (Rec (KNum 3) v3); Data (Rec (KNum 4) v4);
                     Data (Rec (KNum 5) v5); End]
        /\ cursorsOpened a = 1%nat
        /\ waiting a = Idle)
    /\ forall es,
         Forall calm es ->
         waiting (run a0 es) = Idle ->
         emitted (run a0 es) =
           [Data (Rec (KNum 1) v1); Data (Rec (KNum 2) v2);
            Data (Rec (KNum 3) v3); Data (Rec (KNum 4) v4);
            Data (Rec (KNum 5) v5); End]
         /\ cursorsOpened (run a0 es) = 1%nat.
Proof.
  intros Hrange Hdir.
  assert (Hkr : effective_keyRange (given_options (VObject (OOptions o))) None
                = inr None).
  { unfold effective_keyRange, narrowed. simpl. rewrite Hrange. reflexivity. }
  assert (Htx : db_transaction (items_db v1 v2 v3 v4 v5)
                  (name_of (VString "items")) = inr (items v1 v2 v3 v4 v5)).
  { unfold items_db. simpl. rewrite lookup_singleton_eq. reflexivity. }
  pose proof (construction_returns (items_db v1 v2 v3 v4 v5) (VString "items")
                (VObject (OOptions o)) None (items v1 v2 v3 v4 v5)
                eq_refl eq_refl (or_intror eq_refl) Hkr Htx) as Hret.
  cbv zeta in Hret.
  assert (Hcur : openCursor (items v1 v2 v3 v4 v5) None
                   (opt_direction
                      (xtend (Options None None (Some true))
                         (given_options (VObject (OOptions o)))))
                 = items v1 v2 v3 v4 v5).
  { unfold openCursor. simpl.
    destruct (opt_direction o) as [d |]; simpl in *; [subst d |]; reflexivity. }
  rewrite Hcur in Hret.
  eexists. split; [exact Hret |]. split.
  - cbv zeta. split; [reflexivity |]. split; reflexivity.
  - intros es Hes Hw.
    match goal with
    | |- emitted (run ?a0 es) = _ /\ _ =>
        assert (Hinv : calm_inv (items v1 v2 v3 v4 v5) (run a0 es))
    end.
    { apply calm_run; [exact Hes |].
      split; [reflexivity |]. simpl. exists []. auto. }
    destruct Hinv as [Hn Hinv]. rewrite Hw in Hinv. auto.
Qed.

Lemma items_end_to_end_witness :
  exists a0,
    items_stream no_options = Some a0
    /\ emitted (run a0 [Success true Advanced; Success false Advanced;
                        Drain Advanced; Success true Advanced;
                        Success true Advanced; Success false Advanced;
                        Drain Advanced; Success true Advanced])
       = [Data (Rec (KNum 1) "a"); Data (Rec (KNum 2) "b");
          Data (Rec (KNum 3) "c"); Data (Rec (KNum 4) "d");
          Data (Rec (KNum 5) "e"); End].
Proof.
  destruct (items_end_to_end "a" "b" "c" "d" "e" no_options)
    as (a0 & Hret & _ & Hall); [reflexivity | reflexivity |].
  exists a0. split.
  - unfold items_stream. rewrite Hret. reflexivity.
  - apply Hall.
    + repeat constructor.
    + vm_compute in Hret. injection Hret as <-. vm_compute. reflexivity.
Defined.

(** ** The key order *)

Section KeyOrder.

Lemma key_compare_eq (a b : key) : key_compare a b = Eq -> a = b.
Proof.
  destruct a as [x | s], b as [y | t]; simpl; try discriminate.
  - intros H. apply Z.compare_eq in H. congruence.
  - intros H. apply OrderedTypeEx.String_as_OT.cmp_eq in H. congruence.
Qed.

Lemma key_compare_antisym (a b : key) :
  key_compare b a = CompOpp (key_compare a b).
Proof.
  destruct a as [x | s], b as [y | t]; simpl; try reflexivity.
  - apply Z.compare_antisym.
  - apply OrderedTypeEx.String_as_OT.cmp_antisym.
Qed.

Lemma key_ltb_irrefl (a : key) : key_ltb a a = false.
Proof.
  unfold key_ltb. pose proof (key_compare_antisym a a) as H.
  destruct (key_compare a a); simpl in H; try reflexivity; discriminate.
Qed.

Lemma key_ltb_trans (a b c : key) :
  key_ltb a b = true -> key_ltb b c = true -> key_ltb a c = true.
Proof.
  unfold key_ltb.
  destruct a as [x | s], b as [y | t], c as [z | u]; simpl;
    try reflexivity; try discriminate.
  - destruct (Z.compare_spec x y); try discriminate.
    destruct (Z.compare_spec y z); try discriminate.
    destruct (Z.compare_spec x z); try reflexivity; lia.
  - destruct (String.compare s t) eqn:H1; try discriminate.
    destruct (String.compare t u) eqn:H2; try discriminate.
    intros _ _.
    apply OrderedTypeEx.String_as_OT.cmp_lt in H1, H2.
    pose proof (OrderedTypeEx.String_as_OT.lt_trans _ _ _ H1 H2) as H3.
    apply OrderedTypeEx.String_as_OT.cmp_lt in H3.
    unfold OrderedTypeEx.String_as_OT.cmp in H3. rewrite H3. reflexivity.
Qed.

Lemma key_ltb_asym (a b : key) : key_ltb a b = true -> key_ltb b a = false.
Proof.
  intros H. destruct (key_ltb b a) eqn:H'; [| reflexivity].
  rewrite <- (key_ltb_irrefl a). symmetry.
  exact (key_ltb_trans a b a H H').
Qed.

Lemma key_leb_cases (a b : key) :
  key_leb a b = true -> key_ltb a b = true \/ a = b.
Proof.
  unfold key_leb, key_ltb. destruct (key_compare a b) eqn:H;
    try discriminate; auto.
  right. apply key_compare_eq, H.
Qed.

Lemma key_ltb_leb (a b : key) : key_ltb a b = true -> key_leb a b = true.
Proof.
  unfold key_leb, key_ltb. destruct (key_compare a b); congruence.
Qed.

(** A key beyond one that is above a lower bound is above it. *)
Lemma above_trans (l : key) (lo : bool) (K k : key) :
  above l lo K = true -> key_ltb K k = true -> above l lo k = true.
Proof.
  unfold above. intros HK Hk.
  assert (H : key_ltb l k = true).
  { destruct lo.
    - exact (key_ltb_trans _ _ _ HK Hk).
    - destruct (key_leb_cases _ _ HK) as [Hl | ->];
        [exact (key_ltb_trans _ _ _ Hl Hk) | exact Hk]. }
  destruct lo; [exact H | apply key_ltb_leb, H].
Qed.

(** A key before one that is below an upper bound is below it. *)
Lemma below_trans (u : key) (uo : bool) (K k : key) :
  below u uo K = true -> key_ltb k K = true -> below u uo k = true.
Proof.
  unfold below. intros HK Hk.
  assert (H : key_ltb k u = true).
  { destruct uo.
    - exact (key_ltb_trans _ _ _ Hk HK).
    - destruct (key_leb_cases _ _ HK) as [Hl | <-];
        [exact (key_ltb_trans _ _ _ Hk Hl) | exact Hk]. }
  destruct uo; [exact H | apply key_ltb_leb, H].
Qed.

Lemma before_irrefl (bw : bool) (a : key) : before bw a a = false.
Proof. destruct bw; apply key_ltb_irrefl. Qed.

Lemma before_asym (bw : bool) (a b : key) :
  before bw a b = true -> before bw b a = false.
Proof. destruct bw; apply key_ltb_asym. Qed.

End KeyOrder.

(** ** Re-opening resumes the cursor *)

Section SortedLists.
Context {A : Type} (R : A -> A -> Prop).

Lemma filter_both (f g : A -> bool) (l : list A) :
  List.filter (fun x => f x && g x) l = List.filter f (List.filter g l).
Proof.
  induction l as [| x l IH]; simpl; [reflexivity |].
  destruct (g x); simpl.
  - rewrite andb_true_r. destruct (f x); rewrite IH; reflexivity.
  - rewrite andb_false_r. exact IH.
Qed.

Lemma StronglySorted_list_filter (f : A -> bool) (l : list A) :
  StronglySorted R l -> StronglySorted R (List.filter f l).
Proof.
  induction 1 as [| x l Hl IH Hx]; simpl; [constructor |].
  destruct (f x); [| exact IH].
  constructor; [exact IH |].
  rewrite Forall_forall in Hx |- *. intros y Hy.
  apply Hx. apply list_elem_of_In in Hy. apply List.filter_In in Hy as [Hy _].
  apply list_elem_of_In, Hy.
Qed.

Lemma StronglySorted_rev (l : list A) :
  StronglySorted R l -> StronglySorted (fun x y => R y x) (rev l).
Proof.
  induction 1 as [| x l Hl IH Hx]; simpl; [constructor |].
  apply StronglySorted_app. split; [| split; [exact IH |]].
  - intros y z Hy Hz. apply list_elem_of_In, in_rev in Hy.
    apply list_elem_of_singleton in Hz. subst z.
    rewrite Forall_forall in Hx. apply Hx, list_elem_of_In, Hy.
  - repeat constructor.
Qed.
End SortedLists.

Lemma openCursor_sorted (s : objectStore) (kr : option IDBKeyRange)
    (d : option direction) :
  store_sorted s ->
  StronglySorted
    (fun r1 r2 =>
       before (backward (default next d)) (rec_key r1) (rec_key r2) = true)
    (openCursor s kr d).
Proof.
  intros Hs. unfold openCursor.
  pose proof (StronglySorted_list_filter _
                (fun r => in_keyRange kr (rec_key r)) s Hs) as Hf.
  destruct (backward (default next d)); simpl; [| exact Hf].
  apply (StronglySorted_rev _ _ Hf).
Qed.

Lemma openCursor_elem (s : objectStore) (kr : option IDBKeyRange)
    (d : option direction) (r : record) :
  r ∈ openCursor s kr d <-> r ∈ s /\ in_keyRange kr (rec_key r) = true.
Proof.
  unfold openCursor. rewrite (list_elem_of_In s r).
  rewrite <- (List.filter_In (fun r => in_keyRange kr (rec_key r)) r s).
  destruct (backward (default next d)).
  - rewrite list_elem_of_In. symmetry. apply in_rev.
  - apply list_elem_of_In.
Qed.

(** In a list in cursor order, the records that come after [r] are those
    behind it. *)
Lemma filter_after (bw : bool) (done rest : list record) (r : record) :
  StronglySorted
    (fun r1 r2 => before bw (rec_key r1) (rec_key r2) = true)
    (done ++ r :: rest) ->
  List.filter (fun x => before bw (rec_key r) (rec_key x)) (done ++ r :: rest)
  = rest.
Proof.
  intros Hs. apply StronglySorted_app in Hs as (Hcross & _ & Hr).
  apply StronglySorted_cons in Hr as [Hrest _].
  rewrite List.filter_app. simpl. rewrite before_irrefl.
  assert (Hd : List.filter (fun x => before bw (rec_key r) (rec_key x)) done
               = []).
  { assert (Hall : forall x, x ∈ done ->
                before bw (rec_key r) (rec_key x) = false).
    { intros x Hx. apply before_asym, Hcross; [exact Hx | left]. }
    clear Hcross Hrest. induction done as [| x done IH]; [reflexivity |].
    simpl. rewrite (Hall x) by left.
    apply IH. intros y Hy. apply Hall. right. exact Hy. }
  rewrite Hd. simpl.
  clear Hcross Hd. induction rest as [| y rest IH]; simpl; [reflexivity |].
  inversion Hrest as [| ? ? Hy Hrest']; subst.
  rewrite Hy, (IH Hrest'). reflexivity.
Qed.

Lemma if_truthy_Some (K : key) :
  key_truthy K = true -> if_truthy (Some K) = Some K.
Proof. intros HK. simpl. rewrite HK. reflexivity. Qed.

(** With a direction other than ["nextunique"], the bounds of a re-opening
    after a truthy key [K] within the first bounds hold the keys within the
    first bounds that come after [K]. *)
Lemma reopen_in_bounds (o : options) (K k : key) :
  opt_direction o <> Some nextunique ->
  key_truthy K = true ->
  in_bounds (narrowed o None) K = true ->
  in_bounds (narrowed o (Some K)) k
  = before (backward (default next (opt_direction o))) K k
    && in_bounds (narrowed o None) k.
Proof.
  intros Hd HK Hin.
  rewrite narrowed_first in Hin |- *. cbv zeta in *.
  pose proof (if_truthy_Some K HK) as HtK.
  destruct (decide (default next (opt_direction o) = next)) as [Hn | Hn].
  - rewrite (narrowed_next o K Hn HK), Hn. cbv zeta. unfold in_bounds in *.
    rewrite HtK.
    set (r := default empty_range (opt_range o)) in *.
    destruct (if_truthy (lower r)) as [l |], (if_truthy (upper r)) as [u |];
      simpl in *.
    + apply andb_true_iff in Hin as [Hl Hu].
      destruct (key_ltb K k) eqn:Hk; simpl; [| reflexivity].
      rewrite (above_trans l (lowerOpen r) K k Hl Hk). reflexivity.
    + rewrite andb_true_r in Hin |- *.
      destruct (key_ltb K k) eqn:Hk; simpl; [| reflexivity].
      rewrite (above_trans l (lowerOpen r) K k Hin Hk). reflexivity.
    + reflexivity.
    + reflexivity.
  - rewrite (narrowed_not_next o K Hn HK). cbv zeta. unfold in_bounds in *.
    assert (Hb : backward (default next (opt_direction o)) = true).
    { destruct (opt_direction o) as [[] |]; simpl in *;
        try reflexivity; try congruence. }
    rewrite Hb, HtK.
    set (r := default empty_range (opt_range o)) in *.
    destruct (if_truthy (lower r)) as [l |], (if_truthy (upper r)) as [u |];
      simpl in *.
    + apply andb_true_iff in Hin as [Hl Hu].
      destruct (key_ltb k K) eqn:Hk; simpl;
        [| rewrite andb_false_r; reflexivity].
      rewrite (below_trans u (upperOpen r) K k Hu Hk).
      rewrite !andb_true_r. reflexivity.
    + rewrite !andb_true_r. apply andb_comm.
    + destruct (key_ltb k K) eqn:Hk; simpl; [| reflexivity].
      rewrite (below_trans u (upperOpen r) K k Hin Hk). reflexivity.
    + rewrite andb_true_r. reflexivity.
Qed.

(** The same of the key ranges, where both are built. *)
Lemma reopen_in_keyRange (o : options) (kr0 kr' : option IDBKeyRange)
    (K k : key) :
  effective_keyRange o None = inr kr0 ->
  effective_keyRange o (Some K) = inr kr' ->
  opt_direction o <> Some nextunique ->
  key_truthy K = true ->
  in_keyRange kr0 K = true ->
  in_keyRange kr' k
  = before (backward (default next (opt_direction o))) K k
    && in_keyRange kr0 k.
Proof.
  intros H0 H' Hd HK Hin. unfold effective_keyRange in *.
  rewrite (keyRange_of_inr _ _ K H0) in Hin.
  rewrite (keyRange_of_inr _ _ k H0), (keyRange_of_inr _ _ k H').
  apply reopen_in_bounds; assumption.
Qed.

(** The cursor re-opened after [r] visits what the first cursor had left
    after [r]. *)
Lemma reopen_resumes (s : objectStore) (o : options)
    (kr0 kr' : option IDBKeyRange) (done rest : list record) (r : record) :
  effective_keyRange o None = inr kr0 ->
  effective_keyRange o (Some (rec_key r)) = inr kr' ->
  store_sorted s ->
  opt_direction o <> Some nextunique ->
  key_truthy (rec_key r) = true ->
  openCursor s kr0 (opt_direction o) = done ++ r :: rest ->
  openCursor s kr' (opt_direction o) = rest.
Proof.
  intros H0 H' Hs Hd Hr Hfull.
  assert (Hin : in_keyRange kr0 (rec_key r) = true).
  { apply (openCursor_elem s _ (opt_direction o) r).
    rewrite Hfull. apply elem_of_app. right. left. }
  pose proof (openCursor_sorted s kr0 (opt_direction o) Hs) as Hsorted.
  rewrite Hfull in Hsorted. apply filter_after in Hsorted.
  rewrite <- Hfull in Hsorted. rewrite <- Hsorted.
  unfold openCursor.
  rewrite (List.filter_ext _
             (fun x => before (backward (default next (opt_direction o)))
                              (rec_key r) (rec_key x)
                       && in_keyRange kr0 (rec_key x)))
    by (intros x; apply (reopen_in_keyRange o kr0 kr'); assumption).
  rewrite filter_both.
  destruct (backward (default next (opt_direction o)));
    [rewrite List.filter_rev |]; reflexivity.
Qed.

Lemma records_emit (s : signal) (a : adapter) :
  records (emit s a) = records a ++ from_option (fun r => [r]) [] (datum s).
Proof.
  unfold records. simpl. rewrite omap_app. simpl.
  destruct (datum s); reflexivity.
Qed.

Section Resume.
Variable s : objectStore.
Variable o : options.
Variable kr0 : option IDBKeyRange.
Hypothesis Hkr0 : effective_keyRange o None = inr kr0.
Hypothesis Hsorted : store_sorted s.
Hypothesis Htruthy : Forall (fun r => key_truthy (rec_key r) = true) s.
Hypothesis Hdir : opt_direction o <> Some nextunique.

(** [proceed], called on a cursor that sits on the record [r] the consumer
    was handed last. *)
Lemma proceed_resume (a : adapter) (done rest : list record) (r : record)
    (adv : advance) :
  db_transaction (db a) (storeName a) = inr s ->
  opts a = o ->
  openCursor s kr0 (opt_direction o)
    = (done ++ [r]) ++ rest ->
  records a = done ++ [r] ->
  lastIteratedKey a = Some (rec_key r) ->
  End ∉ emitted a ->
  resume_inv s o kr0 (proceed (r :: rest) adv a).
Proof.
  intros Htx Ho Hfull Hrec Hlast Hend.
  unfold proceed. destruct adv as [| err].
  - split; [exact Htx |]. split; [exact Ho |].
    exists (done ++ [r]), rest. simpl.
    rewrite last_snoc. auto.
  - destruct (String.eqb (err_name err) "TransactionInactiveError"
              && reopenOnTimeout (log Continue a)).
    + unfold startCursor. cbn [opts lastIteratedKey db storeName log].
      rewrite Ho, Hlast.
      destruct (effective_keyRange o (Some (rec_key r))) as [e | kr'] eqn:Hkr'.
      * split; [exact Htx |]. split; [exact Ho |].
        exists (done ++ [r]), rest. simpl.
        rewrite last_snoc.
        split; [exact Hfull |]. split; [exact Hrec |].
        split; [exact Hlast |]. intros Hin. contradiction.
      * rewrite Htx. simpl.
        split; [exact Htx |]. split; [exact Ho |].
        exists (done ++ [r]), rest. simpl.
        rewrite last_snoc.
        split; [exact Hfull |]. split; [exact Hrec |].
        split; [exact Hlast |]. split; [| exact Hend].
        rewrite Ho.
        apply (reopen_resumes s o kr0 kr' done rest r Hkr0 Hkr' Hsorted Hdir).
        -- rewrite Forall_forall in Htruthy. apply Htruthy.
           apply (openCursor_elem s kr0 (opt_direction o) r).
           rewrite Hfull. apply elem_of_app. left.
           apply elem_of_app. right. left.
        -- rewrite Hfull, <- app_assoc. reflexivity.
    + split; [exact Htx |]. split; [exact Ho |].
      exists (done ++ [r]), rest. simpl.
      rewrite last_snoc.
      split; [exact Hfull |]. split.
      { rewrite <- Hrec. unfold records. simpl. rewrite omap_app. simpl.
        apply app_nil_r. }
      split; [exact Hlast |].
      intros Hin. exfalso. apply elem_of_app in Hin as [Hin | Hin].
      * exact (Hend Hin).
      * apply list_elem_of_singleton in Hin. discriminate.
Qed.

Lemma resume_error (a : adapter) (e : error) :
  resume_inv s o kr0 a -> resume_inv s o kr0 (emit (Error e) a).
Proof.
  intros (Htx & Ho & done & rest & Hfull & Hrec & Hlast & Hw).
  split; [exact Htx |]. split; [exact Ho |].
  exists done, rest. simpl.
  assert (Hmem : End ∈ emitted a ++ [Error e] <-> End ∈ emitted a).
  { rewrite elem_of_app, list_elem_of_singleton.
    split; [intros [H | H]; [exact H | discriminate] | auto]. }
  split; [exact Hfull |]. split.
  { rewrite <- Hrec. unfold records. simpl. rewrite omap_app. simpl.
    apply app_nil_r. }
  split; [exact Hlast |].
  destruct (waiting a); rewrite ?Hmem; exact Hw.
Qed.

Lemma resume_step (a : adapter) (ev : event) :
  resume_inv s o kr0 a -> resume_inv s o kr0 (step a ev).
Proof.
  intros Hinv.
  destruct ev as [w adv | adv | e | e]; simpl;
    [| | apply resume_error, Hinv | apply resume_error, Hinv].
  - destruct (waiting a) as [c | c |] eqn:Hwa; try exact Hinv.
    destruct Hinv as (Htx & Ho & done & rest & Hfull & Hrec & Hlast & Hw).
    rewrite Hwa in Hw. destruct Hw as [-> Hend]. unfold onsuccess.
    destruct rest as [| r rest].
    + split; [exact Htx |]. split; [exact Ho |].
      exists done, []. simpl.
      split; [exact Hfull |]. split.
      { rewrite <- Hrec. unfold records. simpl. rewrite omap_app. simpl.
        apply app_nil_r. }
      split; [exact Hlast |]. reflexivity.
    + set (b := emit (Data r) (set_lastIteratedKey (Some (rec_key r)) a)).
      assert (Hb : records b = done ++ [r]).
      { unfold b. rewrite records_emit. simpl.
        change (records (set_lastIteratedKey (Some (rec_key r)) a))
          with (records a).
        rewrite Hrec. reflexivity. }
      assert (Hbe : End ∉ emitted b).
      { simpl. intros Hin. apply elem_of_app in Hin as [Hin | Hin].
        - exact (Hend Hin).
        - apply list_elem_of_singleton in Hin. discriminate. }
      assert (Hfull' : openCursor s kr0 (opt_direction o) = (done ++ [r]) ++ rest).
      { rewrite Hfull, <- app_assoc. reflexivity. }
      destruct w.
      * apply (proceed_resume b done rest r adv); auto.
      * split; [exact Htx |]. split; [exact Ho |].
        exists (done ++ [r]), rest. simpl.
        rewrite last_snoc.
        split; [exact Hfull' |]. split; [exact Hb |].
        split; [reflexivity |]. split; [| exact Hbe].
        exists r. auto.
  - destruct (waiting a) as [c | c |] eqn:Hwa; try exact Hinv.
    destruct Hinv as (Htx & Ho & done & rest & Hfull & Hrec & Hlast & Hw).
    rewrite Hwa in Hw. destruct Hw as [(r & Hr & ->) Hend].
    destruct (last_Some done r) as [(done' & ->) _]; [exact Hr |].
    apply (proceed_resume a done' rest r adv); auto.
    rewrite Hlast, last_snoc. reflexivity.
Qed.

Lemma resume_run (es : list event) (a : adapter) :
  resume_inv s o kr0 a -> resume_inv s o kr0 (run a es).
Proof.
  revert a. induction es as [| ev es IH]; intros a Hinv; simpl; [auto |].
  apply IH, resume_step, Hinv.
Qed.

(** What the invariant says of the records handed over. *)
Lemma resume_inv_records (a : adapter) :
  resume_inv s o kr0 a ->
  records a `prefix_of`
    openCursor s kr0 (opt_direction o)
  /\ (End ∈ emitted a ->
      records a = openCursor s kr0 (opt_direction o)).
Proof.
  intros (_ & _ & done & rest & Hfull & Hrec & _ & Hw).
  split.
  - rewrite Hfull, Hrec. exists rest. reflexivity.
  - intros Hend. rewrite Hfull, Hrec.
    destruct (waiting a) as [c | c |].
    + destruct Hw as [_ Hn]. contradiction.
    + destruct Hw as [_ Hn]. contradiction.
    + rewrite (Hw Hend), app_nil_r. reflexivity.
Qed.

End Resume.

(** X16. With bounds that are truthy where present, the first cursor is
    opened over the range as configured: a key is in the range built by
    [startCursor] exactly when it is within the bounds of [opts.range]. *)
Lemma first_range_is_configured (o : options) (kr : option IDBKeyRange)
    (k : key) :
  let r := default empty_range (opt_range o) in
  (forall l, lower r = Some l -> key_truthy l = true) ->
  (forall u, upper r = Some u -> key_truthy u = true) ->
  effective_keyRange o None = inr kr ->
  in_keyRange kr k = in_range r k.
Proof.
  intros r Hl Hu Hkr. unfold effective_keyRange in Hkr.
  rewrite (keyRange_of_inr _ _ k Hkr), narrowed_first.
  fold r. cbv zeta. unfold in_bounds, in_range.
  destruct (lower r) as [l |], (upper r) as [u |]; simpl;
    rewrite ?(Hl _ eq_refl), ?(Hu _ eq_refl); reflexivity.
Qed.

(** A request in flight whose successes are all accepted and advanced comes
    to the end of its cursor. *)
Lemma calm_finish (c : list record) (a : adapter) :
  waiting a = AwaitSuccess c ->
  End ∈ emitted (run a (replicate (S (length c)) (Success true Advanced))).
Proof.
  revert a. induction c as [| r c IH]; intros a Hw.
  - simpl. rewrite Hw. simpl. apply elem_of_app. right. left.
  - change (replicate (S (length (r :: c))) (Success true Advanced))
      with (Success true Advanced
              :: replicate (S (length c)) (Success true Advanced)).
    change (run a (?e :: ?es)) with (run (step a e) es).
    apply IH. simpl. rewrite Hw. reflexivity.
Qed.

(** The stream that is returned stands at the start of its first cursor. *)
Lemma returned_resume_inv (dbv sn ov : value) (a0 : adapter) :
  idbReadableStream dbv sn ov = Returned a0 ->
  exists kr0 s,
    effective_keyRange (opts a0) None = inr kr0
    /\ db_transaction (db a0) (storeName a0) = inr s
    /\ resume_inv s (opts a0) kr0 a0.
Proof.
  intros Hret.
  destruct (returned_shape _ _ _ _ Hret)
    as (_ & _ & _ & kr & s & Hkr & Htx & Ha0).
  cbv zeta in Ha0. subst a0. cbn [opts db storeName].
  exists kr, s. split; [rewrite effective_keyRange_xtend; exact Hkr |].
  split; [exact Htx |].
  split; [exact Htx |]. split; [reflexivity |].
  eexists [], _. split; [reflexivity |].
  split; [reflexivity |]. split; [reflexivity |].
  split; [reflexivity |]. apply not_elem_of_nil.
Qed.

(** X12. No loss and no duplication across re-openings, where the code
    achieves it: the store is in ascending key order, none of its keys is
    falsy, and the direction is not ["nextunique"].  Whatever happens
    (buffer full, timeouts, the key range of a re-opening refused,
    transaction failures), the records handed to the consumer are a front
    part of what the first cursor visits, all of it once the end is
    signalled; and as long as the adapter waits for a callback, a
    continuation without timeouts reaches the end. *)
Theorem resumed_stream_no_loss_no_duplication
    (dbv sn ov : value) (a0 : adapter) (kr0 : option IDBKeyRange)
    (s : objectStore) (es : list event) :
  idbReadableStream dbv sn ov = Returned a0 ->
  effective_keyRange (opts a0) None = inr kr0 ->
  db_transaction (db a0) (storeName a0) = inr s ->
  store_sorted s ->
  Forall (fun r => key_truthy (rec_key r) = true) s ->
  opt_direction (opts a0) <> Some nextunique ->
  let full := openCursor s kr0 (opt_direction (opts a0)) in
  records (run a0 es) `prefix_of` full
  /\ (End ∈ emitted (run a0 es) -> records (run a0 es) = full)
  /\ (waiting (run a0 es) <> Idle ->
      exists es', Forall calm es'
                  /\ records (run a0 (es ++ es')) = full
                  /\ End ∈ emitted (run a0 (es ++ es'))).
Proof.
  intros Hret Hkr0 Htx Hsorted Htruthy Hdir full.
  assert (Hinv0 : resume_inv s (opts a0) kr0 a0).
  { destruct (returned_resume_inv _ _ _ _ Hret) as (kr & s' & Hkr & Htx' & Hinv).
    rewrite Htx' in Htx. injection Htx as ->.
    rewrite Hkr in Hkr0. injection Hkr0 as ->. exact Hinv. }
  assert (Hall : forall es, resume_inv s (opts a0) kr0 (run a0 es)).
  { intros es0. apply resume_run; assumption. }
  destruct (resume_inv_records s (opts a0) kr0 _ (Hall es)) as [Hpre Hend].
  split; [exact Hpre |]. split; [exact Hend |].
  intros Hw.
  assert (Hes' : exists es', Forall calm es'
                             /\ End ∈ emitted (run (run a0 es) es')).
  { destruct (waiting (run a0 es)) as [c | c |] eqn:Hwa; [| | contradiction].
    - exists (replicate (S (length c)) (Success true Advanced)). split.
      + apply Forall_replicate. exact I.
      + apply calm_finish, Hwa.
    - exists (Drain Advanced
                :: replicate (S (length (tail c))) (Success true Advanced)).
      split.
      + constructor; [exact I | apply Forall_replicate; exact I].
      + change (run ?a (?e :: ?l)) with (run (step a e) l).
        apply calm_finish. simpl. rewrite Hwa. reflexivity. }
  destruct Hes' as (es' & Hcalm & Hin). exists es'.
  rewrite run_app. split; [exact Hcalm |]. split; [| exact Hin].
  rewrite <- run_app in Hin |- *.
  destruct (resume_inv_records s (opts a0) kr0 _ (Hall (es ++ es')))
    as [_ H].
  exact (H Hin).
Qed.

Lemma resumed_stream_no_loss_no_duplication_example :
  exists a0,
    store_stream (items "a" "b" "c" "d" "e")
                 (Options (Some (Range (Some (KNum 2)) None false false))
                          (Some prev) None) = Some a0
    /\ keys_emitted
         (run a0 [Success true (Raised TransactionInactiveError);
                  Success false Advanced;
                  Drain (Raised TransactionInactiveError);
                  Success true Advanced; Success true Advanced;
                  Success true Advanced])
       = [KNum 5; KNum 4; KNum 3; KNum 2].
Proof.
  eexists. split; [vm_compute; reflexivity |].
  match goal with
  | |- keys_emitted (run ?a0 ?es) = _ =>
      destruct (resumed_stream_no_loss_no_duplication
                  (VObject (ODatabase {[ "items" := items "a" "b" "c" "d" "e" ]}))
                  (VString "items")
                  (VObject (OOptions
                     (Options (Some (Range (Some (KNum 2)) None false false))
                              (Some prev) None)))
                  a0 (Some (lowerBound (KNum 2) false))
                  (items "a" "b" "c" "d" "e") es)
        as (_ & Hend & _)
  end.
  - vm_compute. reflexivity.
  - vm_compute. reflexivity.
  - vm_compute. reflexivity.
  - unfold store_sorted, items. repeat constructor.
  - unfold items. repeat constructor.
  - simpl. discriminate.
  - unfold keys_emitted. rewrite Hend.
    + vm_compute. reflexivity.
    + vm_compute. repeat constructor.
Defined.

(** ** Re-opening where it goes wrong *)

(** C1 fails on the code.  With direction ["nextunique"] over the store with
    keys 1 to 5 (which a cursor visits as 1, 2, 3, 4, 5), a timeout after key
    3 re-opens the cursor over the keys below 3: the consumer is handed 1, 2,
    3, 1, 2 and then the end; 4 and 5 are lost, 1 and 2 come twice.  With
    direction ["next"] over a store with keys 0 and 1, a timeout after key 0
    re-opens the cursor over the whole store: the consumer is handed 0, 0,
    1. *)
Theorem reopened_cursor_repeats_keys :
  (exists a0,
     store_stream (items "a" "b" "c" "d" "e")
                  (Options None (Some nextunique) None) = Some a0
     /\ reopenOnTimeout a0 = true
     /\ rec_key <$> openCursor (items "a" "b" "c" "d" "e") None
                      (Some nextunique)
        = [KNum 1; KNum 2; KNum 3; KNum 4; KNum 5]
     /\ let a := run a0 [Success true Advanced; Success true Advanced;
                         Success true (Raised TransactionInactiveError);
                         Success true Advanced; Success true Advanced;
                         Success true Advanced] in
        keys_emitted a = [KNum 1; KNum 2; KNum 3; KNum 1; KNum 2]
        /\ last (emitted a) = Some End
        /\ cursorsOpened a = 2%nat)
  /\ (exists a0,
        store_stream [Rec (KNum 0) "z"; Rec (KNum 1) "a"]
                     (Options None (Some next) None) = Some a0
        /\ let a := run a0 [Success true (Raised TransactionInactiveError);
                            Success true Advanced; Success true Advanced;
                            Success true Advanced] in
           keys_emitted a = [KNum 0; KNum 0; KNum 1]
           /\ last (emitted a) = Some End
           /\ cursorsOpened a = 2%nat).
Proof.
  split; eexists; (split; [vm_compute; reflexivity |]);
    vm_compute; auto.
Qed.

(** * Further properties of the code *)

(** ** Construction *)

(** X1. A stream is returned exactly when [db] is of type object,
    [storeName] is a string, [opts] is nullish or of type object, the key
    range is built from the configured bounds ([IDBKeyRange.bound] does not
    throw) and [db.transaction] finds the store.  The stream returned has
    opened one transaction on that store and one cursor over that key range
    with the direction as given, has written nothing yet, and carries the
    options as given with [reopenOnTimeout] set to [true] where none was
    given. *)
Theorem construction_returns_iff (dbv sn ov : value) :
  ((exists a0, idbReadableStream dbv sn ov = Returned a0) <->
   typeof dbv = "object" /\ typeof sn = "string"
   /\ (loosely_null ov = true \/ typeof ov = "object")
   /\ (exists kr, effective_keyRange (given_options ov) None = inr kr)
   /\ exists s, db_transaction dbv (name_of sn) = inr s)
  /\ forall a0,
       idbReadableStream dbv sn ov = Returned a0 ->
       let g := given_options ov in
       opts a0 = Options (opt_range g) (opt_direction g)
                   (Some (default true (opt_reopenOnTimeout g)))
       /\ cursorsOpened a0 = 1%nat
       /\ emitted a0 = []
       /\ lastIteratedKey a0 = None
       /\ exists kr s,
            effective_keyRange g None = inr kr
            /\ db_transaction dbv (name_of sn) = inr s
            /\ calls a0 = [Transaction (name_of sn);
                           OpenCursor kr (opt_direction g)]
            /\ waiting a0 = AwaitSuccess (openCursor s kr (opt_direction g)).
Proof.
  split.
  - split.
    + intros [a0 Hret].
      destruct (returned_shape _ _ _ _ Hret)
        as (? & ? & ? & kr & s & ? & ? & _).
      eauto 8.
    + intros (Hdb & Hsn & Ho & [kr Hkr] & s & Htx).
      eexists. exact (construction_returns _ _ _ _ _ Hdb Hsn Ho Hkr Htx).
  - intros a0 Hret g.
    destruct (returned_shape _ _ _ _ Hret)
      as (_ & _ & _ & kr & s & Hkr & Htx & Ha0).
    cbv zeta in Ha0. rewrite xtend_default_options in Ha0. fold g in Ha0.
    subst a0. simpl.
    repeat (split; [reflexivity |]). exists kr, s.
    split; [exact Hkr |]. split; [exact Htx |]. split; reflexivity.
Qed.

Lemma construction_returns_iff_witness :
  exists a0,
    idbReadableStream (items_db "a" "b" "c" "d" "e") (VString "items")
      (VObject (OOptions (Options None (Some prev) (Some false))))
    = Returned a0
    /\ calls a0 = [Transaction "items"; OpenCursor None (Some prev)].
Proof.
  destruct (construction_returns_iff (items_db "a" "b" "c" "d" "e")
              (VString "items")
              (VObject (OOptions (Options None (Some prev) (Some false)))))
    as [[_ Hex] Hshape].
  destruct Hex as [a0 Hret].
  - split; [reflexivity |]. split; [reflexivity |].
    split; [right; reflexivity |].
    split; [exists None; reflexivity |].
    exists (items "a" "b" "c" "d" "e"). vm_compute. reflexivity.
  - exists a0. split; [exact Hret |].
    destruct (Hshape a0 Hret) as (_ & _ & _ & _ & kr & s & Hkr & _ & Hc & _).
    rewrite Hc. vm_compute in Hkr. injection Hkr as <-. reflexivity.
Defined.

(** X2. After the [db] and [storeName] checks, an [opts] that is neither
    nullish nor of type object is refused with a [TypeError] before any call
    to IndexedDB; [null] and [undefined] stand for an empty options
    object. *)
Theorem opts_argument_checked (dbv sn ov : value) :
  typeof dbv = "object" ->
  typeof sn = "string" ->
  (loosely_null ov = false -> typeof ov <> "object" ->
   idbReadableStream dbv sn ov = Thrown (TypeError "opts must be an object") [])
  /\ idbReadableStream dbv sn VUndefined
     = idbReadableStream dbv sn (VObject (OOptions no_options))
  /\ idbReadableStream dbv sn VNull
     = idbReadableStream dbv sn (VObject (OOptions no_options)).
Proof.
  intros Hdb Hsn. split; [| split; reflexivity].
  intros Hn Ho. unfold idbReadableStream. rewrite Hdb, Hsn, Hn. simpl.
  destruct (String.eqb_spec (typeof ov) "object") as [H | H];
    [contradiction | reflexivity].
Qed.

Lemma opts_argument_checked_witness :
  idbReadableStream (items_db "a" "b" "c" "d" "e") (VString "items")
                    (VNumber 3)
  = Thrown (TypeError "opts must be an object") [].
Proof.
  destruct (opts_argument_checked (items_db "a" "b" "c" "d" "e")
              (VString "items") (VNumber 3)) as [H _];
    [reflexivity | reflexivity |].
  apply H; [reflexivity | simpl; discriminate].
Defined.

(** X3. What [db.transaction] throws in the first [startCursor] (the store
    is not in the database, [db] has no such method) leaves
    [idbReadableStream] as it is thrown, with no transaction and no cursor
    opened.  ([db.transaction] is reached once the key range is built.) *)
Theorem construction_propagates_transaction_failure
    (dbv sn ov : value) (kr : option IDBKeyRange) (e : error) :
  typeof dbv = "object" ->
  typeof sn = "string" ->
  loosely_null ov = true \/ typeof ov = "object" ->
  effective_keyRange (given_options ov) None = inr kr ->
  db_transaction dbv (name_of sn) = inl e ->
  idbReadableStream dbv sn ov = Thrown e [].
Proof.
  intros Hdb Hsn Ho Hkr Htx.
  assert (Ho' : typeof (if loosely_null ov
                        then VObject (OOptions no_options) else ov)
                = "object").
  { destruct Ho as [Hn | Ho]; [rewrite Hn; reflexivity |].
    destruct (loosely_null ov); [reflexivity | exact Ho]. }
  unfold idbReadableStream. rewrite Hdb, Hsn, Ho'.
  change (negb (String.eqb "object" "object")) with false.
  change (negb (String.eqb "string" "string")) with false.
  cbv iota zeta. fold (name_of sn). rewrite given_options_nullish.
  unfold startCursor, fresh. cbn [opts lastIteratedKey db storeName].
  rewrite effective_keyRange_xtend, Hkr, Htx. reflexivity.
Qed.

Lemma construction_propagates_transaction_failure_witness :
  idbReadableStream (items_db "a" "b" "c" "d" "e") (VString "orders") VUndefined
  = Thrown NotFoundError [].
Proof.
  apply (construction_propagates_transaction_failure _ _ _ None).
  - reflexivity.
  - reflexivity.
  - left. reflexivity.
  - reflexivity.
  - vm_compute. reflexivity.
Defined.

(** ** The books of a stream *)

Ltac tally :=
  unfold transactions, advances, ranges_opened, records, ends, owed in *;
  simpl in *;
  rewrite ?List.filter_app, ?omap_app in *;
  simpl in *;
  rewrite ?length_app, ?last_snoc, ?app_nil_r in *;
  simpl in *.

Lemma proceed_accounted (c : list record) (adv : advance) (a : adapter) :
  cursorsOpened a = transactions a ->
  cursorsOpened a = length (ranges_opened a) ->
  (1 <= cursorsOpened a <= 1 + advances a)%nat ->
  Forall (call_on (storeName a) (opt_direction (opts a))) (calls a) ->
  (advances a + 1 = length (records a))%nat ->
  lastIteratedKey a = rec_key <$> last (records a) ->
  ends a = 0%nat ->
  accounted (proceed c adv a).
Proof.
  intros Htx Hcur Hle Hon Hadv Hlast Hend.
  unfold accounted, proceed. destruct adv as [| err].
  - tally. repeat split; try lia; try assumption.
    apply Forall_app. split; [assumption | repeat constructor].
  - destruct (String.eqb (err_name err) "TransactionInactiveError"
              && reopenOnTimeout (log Continue a)).
    + unfold startCursor. simpl.
      destruct (effective_keyRange (opts a) (lastIteratedKey a))
        as [e0 | kr].
      { tally. repeat split; try lia; try assumption.
        apply Forall_app. split; [assumption | repeat constructor]. }
      destruct (db_transaction (db a) (storeName a)) as [e | s].
      * tally. repeat split; try lia; try assumption.
        apply Forall_app. split; [assumption | repeat constructor].
      * tally. repeat split; try lia; try assumption.
        repeat (apply Forall_app; split); try assumption;
          repeat constructor.
    + tally. repeat split; try lia; try assumption.
      apply Forall_app. split; [assumption | repeat constructor].
Qed.

Lemma accounted_step (a : adapter) (ev : event) :
  accounted a -> accounted (step a ev).
Proof.
  intros (Htx & Hcur & Hle & Hon & Hadv & Hlast & Hend & Hidle).
  destruct ev as [w adv | adv | e | e]; simpl.
  - destruct (waiting a) as [[| r c] | c |] eqn:Hw;
      try (unfold accounted; rewrite Hw; auto 10; fail).
    + unfold accounted. assert (He : ends a = 0%nat) by (apply Hidle; discriminate).
      tally. rewrite Hw in *. repeat split; try lia; try assumption.
      intros H. contradiction.
    + assert (He : ends a = 0%nat) by (apply Hidle; discriminate).
      unfold onsuccess. destruct w.
      * apply proceed_accounted; tally; rewrite ?Hw in *; try lia;
          try assumption; reflexivity.
      * unfold accounted. tally. rewrite ?Hw in *.
        repeat split; try lia; try assumption.
  - destruct (waiting a) as [c | c |] eqn:Hw;
      try (unfold accounted; rewrite Hw; auto 10; fail).
    assert (He : ends a = 0%nat) by (apply Hidle; discriminate).
    apply proceed_accounted; tally; rewrite ?Hw in *; try lia; assumption.
  - unfold accounted. tally. repeat split; try lia; try assumption.
    intros H. rewrite Nat.add_0_r. exact (Hidle H).
  - unfold accounted. tally. repeat split; try lia; try assumption.
    intros H. rewrite Nat.add_0_r. exact (Hidle H).
Qed.

Lemma accounted_run (es : list event) (a : adapter) :
  accounted a -> accounted (run a es).
Proof.
  revert a. induction es as [| ev es IH]; intros a Ha; simpl; [exact Ha |].
  apply IH, accounted_step, Ha.
Qed.

Lemma returned_accounted (dbv sn ov : value) (a0 : adapter) :
  idbReadableStream dbv sn ov = Returned a0 -> accounted a0.
Proof.
  intros Hret.
  destruct (returned_shape _ _ _ _ Hret) as (_ & _ & _ & kr & s & _ & _ & ->).
  unfold accounted. tally. repeat split; try lia; try reflexivity.
  repeat constructor.
Qed.

Lemma accounted_stream (dbv sn ov : value) (a0 : adapter) (es : list event) :
  idbReadableStream dbv sn ov = Returned a0 -> accounted (run a0 es).
Proof. intros Hret. apply accounted_run, (returned_accounted _ _ _ _ Hret). Qed.

(** X4. Whatever has happened to a stream, [_cursorsOpened] is the number of
    transactions opened and the number of cursors opened, and it is at least
    one; every transaction was opened on the store named at construction and
    every cursor with the direction given at construction. *)
Theorem cursorsOpened_counts_cursors
    (dbv sn ov : value) (a0 : adapter) (es : list event) :
  idbReadableStream dbv sn ov = Returned a0 ->
  let a := run a0 es in
  cursorsOpened a = transactions a
  /\ cursorsOpened a = length (ranges_opened a)
  /\ (1 <= cursorsOpened a)%nat
  /\ Forall (call_on (name_of sn) (opt_direction (given_options ov))) (calls a).
Proof.
  intros Hret a.
  destruct (accounted_stream _ _ _ _ es Hret) as (Htx & Hcur & Hle & Hon & _).
  fold a in Htx, Hcur, Hle, Hon.
  split; [exact Htx |]. split; [exact Hcur |]. split; [lia |].
  destruct (run_consts es a0) as (_ & Hsn & Ho). fold a in Hsn, Ho.
  destruct (returned_shape _ _ _ _ Hret) as (_ & _ & _ & kr & s & _ & _ & Ha0).
  rewrite Hsn, Ho, Ha0 in Hon. cbv zeta in Hon.
  rewrite xtend_default_options in Hon. exact Hon.
Qed.

Lemma cursorsOpened_counts_cursors_witness :
  exists a0,
    items_stream no_options = Some a0
    /\ cursorsOpened
         (run a0 [Success true (Raised TransactionInactiveError);
                  Success false Advanced;
                  Drain (Raised TransactionInactiveError)])
       = transactions
           (run a0 [Success true (Raised TransactionInactiveError);
                    Success false Advanced;
                    Drain (Raised TransactionInactiveError)]).
Proof.
  destruct (items_stream no_options) as [a0 |] eqn:H;
    [| vm_compute in H; discriminate].
  exists a0. split; [reflexivity |].
  apply items_stream_returned in H.
  exact (proj1 (cursorsOpened_counts_cursors _ _ _ a0 _ H)).
Defined.

(** X5. Whatever has happened to a stream, the last iterated key is the key
    of the record written last, and there is none before the first record
    is written. *)
Theorem lastIteratedKey_is_last_record
    (dbv sn ov : value) (a0 : adapter) (es : list event) :
  idbReadableStream dbv sn ov = Returned a0 ->
  lastIteratedKey (run a0 es) = rec_key <$> last (records (run a0 es)).
Proof.
  intros Hret.
  destruct (accounted_stream _ _ _ _ es Hret) as (_ & _ & _ & _ & _ & H & _).
  exact H.
Qed.

Lemma lastIteratedKey_is_last_record_witness :
  exists a0,
    items_stream no_options = Some a0
    /\ lastIteratedKey
         (run a0 [Success true Advanced; Success false Advanced;
                  TxError (Err "UnknownError" "")])
       = rec_key <$> last (records
           (run a0 [Success true Advanced; Success false Advanced;
                    TxError (Err "UnknownError" "")])).
Proof.
  destruct (items_stream no_options) as [a0 |] eqn:H;
    [| vm_compute in H; discriminate].
  exists a0. split; [reflexivity |].
  apply items_stream_returned in H.
  exact (lastIteratedKey_is_last_record _ _ _ a0 _ H).
Defined.

(** What one call of [proceed] adds to the books: one [continue], no
    record, at most one cursor, and no drain listener. *)
Lemma proceed_ledger (c : list record) (adv : advance) (a : adapter) :
  advances (proceed c adv a) = S (advances a)
  /\ records (proceed c adv a) = records a
  /\ owed (proceed c adv a) = 0%nat
  /\ (cursorsOpened a <= cursorsOpened (proceed c adv a)
       <= S (cursorsOpened a))%nat.
Proof.
  destruct (proceed_advances c adv a) as [Hadv Hnd].
  split; [exact Hadv |]. split; [| split].
  - unfold proceed. destruct adv as [| err]; [reflexivity |].
    destruct (_ && _).
    + unfold startCursor. cbn [opts lastIteratedKey db storeName log].
      destruct (effective_keyRange (opts a) (lastIteratedKey a));
        [reflexivity |].
      destruct (db_transaction (db a) (storeName a)); reflexivity.
    + unfold records. simpl. rewrite omap_app. simpl. apply app_nil_r.
  - unfold owed. destruct (waiting (proceed c adv a)) as [c' | c' |] eqn:Hw;
      try reflexivity.
    exfalso. exact (Hnd c' eq_refl).
  - unfold proceed. destruct adv as [| err]; [simpl; lia |].
    destruct (_ && _); [| simpl; lia].
    unfold startCursor. cbn [opts lastIteratedKey db storeName log].
    destruct (effective_keyRange (opts a) (lastIteratedKey a));
      [simpl; lia |].
    destruct (db_transaction (db a) (storeName a)); simpl; lia.
Qed.

(** What one event adds to the books, at any state: at most one cursor,
    and none without a [continue]; a record for each [continue] and for
    each drain listener set up; and after a cursor is opened a request is
    in flight, so nothing is owed. *)
Lemma step_ledger (a : adapter) (ev : event) :
  (cursorsOpened (step a ev) <= S (cursorsOpened a))%nat
  /\ (cursorsOpened (step a ev) + advances a
      <= cursorsOpened a + advances (step a ev))%nat
  /\ (advances (step a ev) + owed (step a ev) + length (records a)
      = advances a + owed a + length (records (step a ev)))%nat
  /\ (cursorsOpened (step a ev) = S (cursorsOpened a) ->
      owed (step a ev) = 0%nat
      /\ advances (step a ev) = S (advances a)).
Proof.
  assert (Hsame : forall b : adapter,
            cursorsOpened b = cursorsOpened a -> advances b = advances a ->
            (owed b + length (records a) = owed a + length (records b))%nat ->
            (cursorsOpened b <= S (cursorsOpened a))%nat
            /\ (cursorsOpened b + advances a
                <= cursorsOpened a + advances b)%nat
            /\ (advances b + owed b + length (records a)
                = advances a + owed a + length (records b))%nat
            /\ (cursorsOpened b = S (cursorsOpened a) ->
                owed b = 0%nat /\ advances b = S (advances a))).
  { intros b Hc Ha Hr. repeat split; lia. }
  destruct ev as [w adv | adv | e | e]; cbn [step].
  - destruct (waiting a) as [[| r c] | c |] eqn:Hw;
      try (apply (Hsame a); [reflexivity | reflexivity | lia]).
    + apply (Hsame (onsuccess [] w adv a)); [reflexivity | reflexivity |].
      change (onsuccess [] w adv a) with (set_waiting Idle (emit End a)).
      change (records (set_waiting Idle (emit End a)))
        with (records (emit End a)).
      rewrite records_emit. simpl. rewrite app_nil_r.
      unfold owed. simpl. rewrite Hw. lia.
    + unfold onsuccess.
      set (b := emit (Data r) (set_lastIteratedKey (Some (rec_key r)) a)).
      assert (Hb : records b = records a ++ [r]).
      { unfold b. rewrite records_emit. reflexivity. }
      destruct w.
      * destruct (proceed_ledger (r :: c) adv b) as (Ha & Hr & Ho & Hc).
        change (advances b) with (advances a) in Ha.
        change (cursorsOpened b) with (cursorsOpened a) in Hc.
        rewrite Hr, Hb, length_app, Ho, Ha. unfold owed. rewrite Hw.
        simpl. repeat split; lia.
      * apply (Hsame (set_waiting (AwaitDrain (r :: c)) b));
          [reflexivity | reflexivity |].
        change (records (set_waiting (AwaitDrain (r :: c)) b))
          with (records b).
        rewrite Hb, length_app. unfold owed. simpl. rewrite Hw. simpl. lia.
  - destruct (waiting a) as [c | c |] eqn:Hw;
      try (apply (Hsame a); [reflexivity | reflexivity | lia]).
    destruct (proceed_ledger c adv a) as (Ha & Hr & Ho & Hc).
    rewrite Hr, Ho, Ha. unfold owed. rewrite Hw. repeat split; lia.
  - apply (Hsame (onabort e a)); [reflexivity | reflexivity |].
    change (onabort e a) with (emit (Error e) a).
    rewrite records_emit. simpl. rewrite app_nil_r. reflexivity.
  - apply (Hsame (onerror e a)); [reflexivity | reflexivity |].
    change (onerror e a) with (emit (Error e) a).
    rewrite records_emit. simpl. rewrite app_nil_r. reflexivity.
Qed.

(** The same over a stretch of events, from any state. *)
Lemma run_ledger (es : list event) (a : adapter) :
  (cursorsOpened (run a es) + advances a
   <= cursorsOpened a + advances (run a es))%nat
  /\ (advances (run a es) + owed (run a es) + length (records a)
      = advances a + owed a + length (records (run a es)))%nat.
Proof.
  revert a. induction es as [| ev es IH]; intros a; simpl; [lia |].
  destruct (IH (step a ev)) as [H1 H2].
  destruct (step_ledger a ev) as (_ & H3 & H4 & _). lia.
Qed.

(** X6. [continue] is called once for each record written, but for the record
    a drain listener is waiting on, so the adapter is at most one record
    ahead of the buffer, and every cursor but the first is opened after a
    record of its own.  One event opens at most one cursor, and opens it
    only out of a [continue]; and between one re-opening and the next a
    record is written: the adapter does not re-open twice in a row. *)
Theorem one_advance_per_record
    (dbv sn ov : value) (a0 : adapter) (es : list event) :
  idbReadableStream dbv sn ov = Returned a0 ->
  let a := run a0 es in
  (advances a + owed a = length (records a))%nat
  /\ (cursorsOpened a <= 1 + advances a)%nat
  /\ (cursorsOpened a <= 1 + length (records a))%nat
  /\ (forall ev,
        (cursorsOpened (step a ev) <= S (cursorsOpened a))%nat
        /\ (cursorsOpened (step a ev) = S (cursorsOpened a) ->
            advances (step a ev) = S (advances a)))
  /\ (forall ev es',
        cursorsOpened (step a ev) = S (cursorsOpened a) ->
        (cursorsOpened (step a ev) < cursorsOpened (run (step a ev) es'))%nat ->
        (length (records (step a ev))
         < length (records (run (step a ev) es')))%nat).
Proof.
  intros Hret a.
  destruct (accounted_stream _ _ _ _ es Hret)
    as (_ & _ & Hle & _ & Hadv & _).
  fold a in Hle, Hadv.
  split; [exact Hadv |]. split; [lia |]. split; [lia |]. split.
  - intros ev. destruct (step_ledger a ev) as (H1 & _ & _ & H4).
    split; [exact H1 |]. intros Hc. exact (proj2 (H4 Hc)).
  - intros ev es' Hopen Hagain.
    destruct (step_ledger a ev) as (_ & _ & _ & H4).
    destruct (H4 Hopen) as [Howed _].
    destruct (run_ledger es' (step a ev)) as [H1 H2]. lia.
Qed.

Lemma one_advance_per_record_witness :
  exists a0,
    items_stream no_options = Some a0
    /\ (length (records
                  (step a0 (Success true (Raised TransactionInactiveError))))
        < length (records
                    (run (step a0 (Success true
                                     (Raised TransactionInactiveError)))
                         [Success false Advanced;
                          Drain (Raised TransactionInactiveError)])))%nat.
Proof.
  destruct (items_stream no_options) as [a0 |] eqn:H;
    [| vm_compute in H; discriminate].
  exists a0. split; [reflexivity |].
  apply items_stream_returned in H.
  destruct (one_advance_per_record _ _ _ a0 [] H)
    as (_ & _ & _ & _ & Hbetween).
  apply Hbetween.
  - vm_compute in H. injection H as <-. vm_compute. reflexivity.
  - vm_compute in H. injection H as <-. vm_compute. lia.
Defined.

Lemma ends_positive (a : adapter) : End ∈ emitted a -> (1 <= ends a)%nat.
Proof.
  unfold ends. induction (emitted a) as [| x l IH]; intros Hin.
  - apply elem_of_nil in Hin. contradiction.
  - apply elem_of_cons in Hin as [<- | Hin]; simpl; [lia |].
    destruct (is_end x); simpl; [lia | exact (IH Hin)].
Qed.

Lemma idle_ends (es : list event) (a : adapter) :
  waiting a = Idle -> ends (run a es) = ends a.
Proof.
  revert a. induction es as [| ev es IH]; intros a Hw; simpl; [reflexivity |].
  destruct (idle_step a ev Hw) as (Hw' & _).
  rewrite (IH _ Hw').
  destruct ev as [w adv | adv | e | e]; simpl; rewrite ?Hw; try reflexivity;
    unfold ends; simpl; rewrite List.filter_app, length_app; simpl; lia.
Qed.

(** X7. The end is signalled at most once, and it is final: once it is
    signalled nothing is pending, and whatever happens afterwards the
    consumer gets no further record and no second end, no cursor is opened
    and IndexedDB is not called. *)
Theorem nothing_after_end
    (dbv sn ov : value) (a0 : adapter) (es : list event) :
  idbReadableStream dbv sn ov = Returned a0 ->
  (ends (run a0 es) <= 1)%nat
  /\ (End ∈ emitted (run a0 es) ->
      waiting (run a0 es) = Idle
      /\ forall es',
           records (run a0 (es ++ es')) = records (run a0 es)
           /\ ends (run a0 (es ++ es')) = 1%nat
           /\ cursorsOpened (run a0 (es ++ es')) = cursorsOpened (run a0 es)
           /\ calls (run a0 (es ++ es')) = calls (run a0 es)).
Proof.
  intros Hret.
  destruct (accounted_stream _ _ _ _ es Hret)
    as (_ & _ & _ & _ & _ & _ & Hend & Hidle).
  split; [exact Hend |]. intros Hin.
  pose proof (ends_positive _ Hin) as Hpos.
  assert (Hw : waiting (run a0 es) = Idle).
  { destruct (waiting (run a0 es)) as [c | c |] eqn:Hw; [| | reflexivity];
      assert (H0 : ends (run a0 es) = 0%nat) by (apply Hidle; discriminate);
      lia. }
  split; [exact Hw |]. intros es'. rewrite run_app.
  destruct (idle_run es' _ Hw) as (_ & Hr & Hc & Hcalls).
  rewrite (idle_ends es' _ Hw).
  repeat split; try assumption. lia.
Qed.

Lemma nothing_after_end_witness :
  exists a0,
    store_stream [] no_options = Some a0
    /\ records (run a0 ([Success true Advanced]
                        ++ [Success true Advanced; Drain Advanced;
                            TxAbort (Err "AbortError" "")]))
       = records (run a0 [Success true Advanced]).
Proof.
  destruct (store_stream [] no_options) as [a0 |] eqn:H;
    [| vm_compute in H; discriminate].
  exists a0. split; [reflexivity |].
  unfold store_stream in H.
  destruct (idbReadableStream _ _ _) as [e made | a1] eqn:Hret;
    [discriminate |].
  injection H as ->.
  destruct (nothing_after_end _ _ _ a0 [Success true Advanced] Hret)
    as [_ Hfinal].
  destruct Hfinal as [_ Hafter].
  - vm_compute in Hret. injection Hret as <-. vm_compute.
    repeat constructor.
  - exact (proj1 (Hafter _)).
Defined.

(** ** Exceptions of [continue] other than the timeout *)

Lemma proceed_other_error (c : list record) (err : error) (a : adapter) :
  err_name err <> "TransactionInactiveError" ->
  proceed c (Raised err) a
  = Adapter (db a) (storeName a) (opts a) (lastIteratedKey a)
      (cursorsOpened a) (emitted a ++ [Error err])
      (calls a ++ [Continue]) (uncaught a) Idle.
Proof.
  intros Hname. unfold proceed.
  apply String.eqb_neq in Hname. rewrite Hname. reflexivity.
Qed.

(** X8. When [continue] throws anything but a [TransactionInactiveError], the
    exception goes to the consumer as one ['error'] (after the record the
    handler had written), no cursor is opened even with [reopenOnTimeout],
    nothing is pending, and no record is written afterwards. *)
Theorem other_exception_is_fatal (a : adapter) (ev : event) (err : error) :
  advance_raises a ev err ->
  err_name err <> "TransactionInactiveError" ->
  let a' := step a ev in
  emitted a' = emitted a ++ (Data <$> pushed_by a ev) ++ [Error err]
  /\ errors a' = S (errors a)
  /\ cursorsOpened a' = cursorsOpened a
  /\ transactions a' = transactions a
  /\ waiting a' = Idle
  /\ stream_over a'.
Proof.
  intros Hraise Hname a'. subst a'.
  unfold advance_raises in Hraise. unfold pushed_by, step.
  destruct ev as [w adv | adv | e | e]; try contradiction.
  - destruct w; [| contradiction].
    destruct adv as [| e]; [contradiction |].
    destruct (waiting a) as [[| r c] | c |] eqn:Hw; try contradiction.
    subst e. unfold onsuccess.
    rewrite (proceed_other_error (r :: c) err _ Hname). simpl.
    rewrite <- app_assoc.
    split; [reflexivity |]. split.
    { unfold errors. simpl. rewrite !List.filter_app, !length_app. simpl. lia. }
    split; [reflexivity |]. split.
    { unfold transactions. simpl. rewrite List.filter_app, length_app.
      simpl. lia. }
    split; [reflexivity |]. apply idle_stream_over. reflexivity.
  - destruct adv as [| e]; [contradiction |].
    destruct (waiting a) as [c | c |] eqn:Hw; try contradiction.
    subst e. rewrite (proceed_other_error c err _ Hname). simpl.
    split; [reflexivity |]. split.
    { unfold errors. simpl. rewrite !List.filter_app, !length_app. simpl. lia. }
    split; [reflexivity |]. split.
    { unfold transactions. simpl. rewrite List.filter_app, length_app.
      simpl. lia. }
    split; [reflexivity |]. apply idle_stream_over. reflexivity.
Qed.

Lemma other_exception_is_fatal_witness :
  exists a0,
    items_stream no_options = Some a0
    /\ reopenOnTimeout a0 = true
    /\ emitted (step a0 (Success true (Raised (Err "InvalidStateError" ""))))
       = [Data (Rec (KNum 1) "a"); Error (Err "InvalidStateError" "")].
Proof.
  eexists. split; [vm_compute; reflexivity |]. split; [reflexivity |].
  match goal with
  | |- emitted (step ?a0 ?ev) = _ =>
      destruct (other_exception_is_fatal a0 ev (Err "InvalidStateError" ""))
        as (H & _)
  end.
  - vm_compute. reflexivity.
  - simpl. discriminate.
  - rewrite H. vm_compute. reflexivity.
Defined.

(** ** A refused write and its drain *)

Lemma proceed_forgets_waiting (c : list record) (adv : advance)
    (p : pending) (a : adapter) :
  proceed c adv (set_waiting p a) = proceed c adv a.
Proof.
  unfold proceed. destruct adv as [| err]; [reflexivity |].
  change (reopenOnTimeout (log Continue (set_waiting p a)))
    with (reopenOnTimeout (log Continue a)).
  destruct (_ && _); [| reflexivity].
  unfold startCursor. simpl.
  destruct (db_transaction (db a) (storeName a)); reflexivity.
Qed.

(** X9. A write the buffer refuses, followed by the drain signal, leaves the
    stream exactly where an accepted write leaves it: what stands between
    the two (the wait for the drain) changes nothing of what is written,
    called or opened. *)
Theorem drain_completes_refused_write
    (a : adapter) (r : record) (c : list record) (adv0 adv : advance) :
  waiting a = AwaitSuccess (r :: c) ->
  step (step a (Success false adv0)) (Drain adv) = step a (Success true adv).
Proof.
  intros Hw. simpl. rewrite Hw. simpl.
  apply proceed_forgets_waiting.
Qed.

Lemma drain_completes_refused_write_witness :
  exists a0,
    items_stream no_options = Some a0
    /\ step (step a0 (Success false Advanced))
            (Drain (Raised TransactionInactiveError))
       = step a0 (Success true (Raised TransactionInactiveError)).
Proof.
  eexists. split; [vm_compute; reflexivity |].
  apply (drain_completes_refused_write _ (Rec (KNum 1) "a")
           [Rec (KNum 2) "b"; Rec (KNum 3) "c"; Rec (KNum 4) "d";
            Rec (KNum 5) "e"]).
  reflexivity.
Defined.

Lemma first_range_is_configured_witness :
  exists kr,
    effective_keyRange
      (Options (Some (Range (Some (KNum 2)) (Some (KStr "m")) true false))
               None None) None = inr kr
    /\ in_keyRange kr (KNum 2) = false.
Proof.
  eexists. split; [reflexivity |].
  rewrite (first_range_is_configured
             (Options (Some (Range (Some (KNum 2)) (Some (KStr "m")) true false))
                      None None) _ (KNum 2)).
  - reflexivity.
  - simpl. intros l H. injection H as <-. reflexivity.
  - simpl. intros u H. injection H as <-. reflexivity.
  - reflexivity.
Defined.

(** ** The range of a re-opening *)

(** The bounds of a re-opening lie within the first bounds. *)
Lemma reopen_bounds_subset (o : options) (last : option key) (k : key) :
  (forall K, last = Some K -> in_bounds (narrowed o None) K = true) ->
  in_bounds (narrowed o last) k = true ->
  in_bounds (narrowed o None) k = true.
Proof.
  intros Hlast Hin. destruct last as [K |]; [| exact Hin].
  specialize (Hlast K eq_refl).
  destruct (key_truthy K) eqn:HK.
  - rewrite narrowed_first in Hlast |- *. cbv zeta in Hlast |- *.
    pose proof (if_truthy_Some K HK) as HtK.
    destruct (decide (default next (opt_direction o) = next)) as [Hn | Hn].
    + rewrite (narrowed_next o K Hn HK) in Hin. cbv zeta in Hin.
      unfold in_bounds in Hin, Hlast |- *. rewrite HtK in Hin.
      apply andb_true_iff in Hin as [Hk Hu].
      apply andb_true_iff in Hlast as [Hl _].
      apply andb_true_iff. split; [| exact Hu].
      destruct (if_truthy (lower (default empty_range (opt_range o))))
        as [l |]; [| reflexivity].
      exact (above_trans l _ K k Hl Hk).
    + rewrite (narrowed_not_next o K Hn HK) in Hin. cbv zeta in Hin.
      unfold in_bounds in Hin, Hlast |- *. rewrite HtK in Hin.
      apply andb_true_iff in Hin as [Hl Hk].
      apply andb_true_iff in Hlast as [_ Hu].
      apply andb_true_iff. split; [exact Hl |].
      destruct (if_truthy (upper (default empty_range (opt_range o))))
        as [u |]; [| reflexivity].
      exact (below_trans u _ K k Hu Hk).
  - assert (Hn : narrowed o (Some K) = narrowed o None).
    { unfold narrowed. simpl. rewrite HK. reflexivity. }
    rewrite Hn in Hin. exact Hin.
Qed.

(** The range of a re-opening, where it is built, lies within the first
    range. *)
Lemma reopen_subset (o : options) (kr0 kr' : option IDBKeyRange)
    (last : option key) (k : key) :
  effective_keyRange o None = inr kr0 ->
  effective_keyRange o last = inr kr' ->
  (forall K, last = Some K -> in_keyRange kr0 K = true) ->
  in_keyRange kr' k = true ->
  in_keyRange kr0 k = true.
Proof.
  intros H0 H' Hlast Hin. unfold effective_keyRange in *.
  rewrite (keyRange_of_inr _ _ k H0).
  rewrite (keyRange_of_inr _ _ k H') in Hin.
  apply (reopen_bounds_subset o last k); [| exact Hin].
  intros K HK. rewrite <- (keyRange_of_inr _ _ K H0). exact (Hlast K HK).
Qed.

(** When [IDBKeyRange.bound] refuses the bounds of a re-opening after a
    truthy key [K] of the first range: the direction is ["next"] and [K] is
    the configured upper bound, or the direction is another and [K] is the
    configured lower bound (or, with ["nextunique"], lies below it). *)
Lemma reopen_refused (o : options) (K : key) (e : error) :
  key_truthy K = true ->
  effective_keyRange o (Some K) = inl e ->
  let r := default empty_range (opt_range o) in
  e = DataError
  /\ if decide (default next (opt_direction o) = next)
     then exists u, if_truthy (upper r) = Some u /\ key_leb u K = true
     else exists l, if_truthy (lower r) = Some l /\ key_leb K l = true.
Proof.
  intros HK He r. split; [exact (keyRange_of_inl _ _ He) |].
  unfold effective_keyRange in He.
  pose proof (if_truthy_Some K HK) as HtK.
  destruct (decide (default next (opt_direction o) = next)) as [Hn | Hn].
  - rewrite (narrowed_next o K Hn HK) in He. cbv zeta in He. fold r in He.
    unfold keyRange_of in He. rewrite HtK in He.
    destruct (if_truthy (upper r)) as [u |]; [| discriminate].
    exists u. split; [reflexivity |].
    unfold IDBKeyRange_bound in He. unfold key_leb.
    rewrite (key_compare_antisym K u).
    destruct (key_compare K u); simpl in *; try reflexivity; discriminate.
  - rewrite (narrowed_not_next o K Hn HK) in He. cbv zeta in He. fold r in He.
    unfold keyRange_of in He. rewrite HtK in He.
    destruct (if_truthy (lower r)) as [l |]; [| discriminate].
    exists l. split; [reflexivity |].
    unfold IDBKeyRange_bound in He. unfold key_leb.
    rewrite (key_compare_antisym l K).
    destruct (key_compare l K); simpl in *; try reflexivity; discriminate.
Qed.

(** X11. After a truthy last key [K], [startCursor] either builds a key range
    or has [IDBKeyRange.bound] throw a [DataError].  A range that is built
    never holds [K] itself, whatever the direction; with a direction other
    than ["nextunique"] and [K] in the first range, it holds exactly the
    keys of the first range that a cursor of that direction visits after
    [K].  The [DataError] is thrown, for [K] in the first range and such a
    direction, exactly when [K] is the configured bound on the far side
    (the upper bound when going forward, the lower bound when going
    backward), so when no key of the range comes after [K]. *)
Theorem reopen_range_after_last_key
    (o : options) (kr0 : option IDBKeyRange) (K : key) :
  key_truthy K = true ->
  effective_keyRange o None = inr kr0 ->
  (forall kr',
     effective_keyRange o (Some K) = inr kr' ->
     in_keyRange kr' K = false
     /\ (opt_direction o <> Some nextunique ->
         in_keyRange kr0 K = true ->
         forall k,
           in_keyRange kr' k
           = before (backward (default next (opt_direction o))) K k
             && in_keyRange kr0 k))
  /\ (opt_direction o <> Some nextunique ->
      in_keyRange kr0 K = true ->
      let r := default empty_range (opt_range o) in
      let far := if backward (default next (opt_direction o))
                 then lower r else upper r in
      (effective_keyRange o (Some K) = inl DataError <-> far = Some K)
      /\ (far = Some K ->
          forall k,
            before (backward (default next (opt_direction o))) K k
            && in_keyRange kr0 k = false)).
Proof.
  intros HK H0.
  pose proof (if_truthy_Some K HK) as HtK.
  split.
  - intros kr' H'. split.
    + unfold effective_keyRange in H'.
      rewrite (keyRange_of_inr _ _ K H').
      destruct (decide (default next (opt_direction o) = next)) as [Hn | Hn].
      * rewrite (narrowed_next o K Hn HK). cbv zeta. unfold in_bounds.
        rewrite HtK. simpl. rewrite key_ltb_irrefl. reflexivity.
      * rewrite (narrowed_not_next o K Hn HK). cbv zeta. unfold in_bounds.
        rewrite HtK. simpl. rewrite key_ltb_irrefl. apply andb_false_r.
    + intros Hd Hin k. apply (reopen_in_keyRange o kr0 kr'); assumption.
  - intros Hd Hin r far.
    assert (Hin' : in_bounds (narrowed o None) K = true).
    { unfold effective_keyRange in H0.
      rewrite <- (keyRange_of_inr _ _ K H0). exact Hin. }
    rewrite narrowed_first in Hin'. cbv zeta in Hin'. fold r in Hin'.
    unfold in_bounds in Hin'. apply andb_true_iff in Hin' as [Hlo Hup].
    assert (Hfar : far = Some K ->
              (forall k,
                 before (backward (default next (opt_direction o))) K k
                 && in_keyRange kr0 k = false)
              /\ effective_keyRange o (Some K) = inl DataError).
    { intros Hf. unfold far in Hf.
      destruct (decide (default next (opt_direction o) = next)) as [Hn | Hn].
      - rewrite Hn in Hf |- *. simpl in Hf |- *.
        rewrite Hf, HtK in Hup. split.
        + intros k. unfold effective_keyRange in H0.
          rewrite (keyRange_of_inr _ _ k H0), narrowed_first. cbv zeta.
          fold r. unfold in_bounds. rewrite Hf, HtK.
          destruct (key_ltb K k) eqn:Hk; [| reflexivity]. simpl.
          assert (Hb : below K (upperOpen r) k = false).
          { unfold below. destruct (upperOpen r).
            - apply key_ltb_asym, Hk.
            - unfold key_leb, key_ltb in *.
              rewrite (key_compare_antisym K k).
              destruct (key_compare K k); simpl; try discriminate;
                reflexivity. }
          rewrite Hb. apply andb_false_r.
        + unfold effective_keyRange.
          rewrite (narrowed_next o K Hn HK). cbv zeta. fold r.
          unfold keyRange_of. rewrite Hf, HtK. unfold IDBKeyRange_bound.
          assert (Heq : key_compare K K = Eq).
          { pose proof (key_compare_antisym K K) as Ha.
            destruct (key_compare K K); simpl in Ha; try reflexivity;
              discriminate. }
          rewrite Heq. reflexivity.
      - assert (Hb : backward (default next (opt_direction o)) = true).
        { destruct (opt_direction o) as [[] |]; simpl in *;
            try reflexivity; try congruence. }
        rewrite Hb in Hf |- *. simpl in Hf |- *.
        rewrite Hf, HtK in Hlo. split.
        + intros k. unfold effective_keyRange in H0.
          rewrite (keyRange_of_inr _ _ k H0), narrowed_first. cbv zeta.
          fold r. unfold in_bounds. rewrite Hf, HtK.
          destruct (key_ltb k K) eqn:Hk; [| reflexivity]. simpl.
          assert (Ha : above K (lowerOpen r) k = false).
          { unfold above. destruct (lowerOpen r).
            - apply key_ltb_asym, Hk.
            - unfold key_leb, key_ltb in *.
              rewrite (key_compare_antisym k K).
              destruct (key_compare k K); simpl; try discriminate;
                reflexivity. }
          rewrite Ha. reflexivity.
        + unfold effective_keyRange.
          rewrite (narrowed_not_next o K Hn HK). cbv zeta. fold r.
          unfold keyRange_of. rewrite Hf, HtK. unfold IDBKeyRange_bound.
          assert (Heq : key_compare K K = Eq).
          { pose proof (key_compare_antisym K K) as Ha.
            destruct (key_compare K K); simpl in Ha; try reflexivity;
              discriminate. }
          rewrite Heq, orb_true_r. reflexivity. }
    split; [| intros Hf; exact (proj1 (Hfar Hf))].
    split; [| intros Hf; exact (proj2 (Hfar Hf))].
    intros He.
    destruct (reopen_refused o K DataError HK He) as [_ Hwhy].
    fold r in Hwhy. unfold far.
    destruct (decide (default next (opt_direction o) = next)) as [Hn | Hn].
    + rewrite Hn. simpl. destruct Hwhy as (u & Hu & Hle).
      rewrite Hu in Hup.
      assert (HuK : u = K).
      { unfold below in Hup. destruct (upperOpen r).
        - exfalso. apply key_leb_cases in Hle as [Hlt | ->].
          + rewrite (key_ltb_asym _ _ Hlt) in Hup. discriminate.
          + rewrite key_ltb_irrefl in Hup. discriminate.
        - apply key_leb_cases in Hle as [Hlt | Heq]; [| exact Heq].
          apply key_leb_cases in Hup as [Hlt' | Heq]; [| symmetry; exact Heq].
          rewrite (key_ltb_asym _ _ Hlt) in Hlt'. discriminate. }
      subst u. destruct (upper r) as [u |]; [| discriminate].
      simpl in Hu. destruct (key_truthy u); [exact Hu | discriminate].
    + assert (Hb : backward (default next (opt_direction o)) = true).
      { destruct (opt_direction o) as [[] |]; simpl in *;
          try reflexivity; try congruence. }
      rewrite Hb. destruct Hwhy as (l & Hl & Hle).
      rewrite Hl in Hlo.
      assert (HlK : l = K).
      { unfold above in Hlo. destruct (lowerOpen r).
        - exfalso. apply key_leb_cases in Hle as [Hlt | ->].
          + rewrite (key_ltb_asym _ _ Hlt) in Hlo. discriminate.
          + rewrite key_ltb_irrefl in Hlo. discriminate.
        - apply key_leb_cases in Hle as [Hlt | Heq]; [| symmetry; exact Heq].
          apply key_leb_cases in Hlo as [Hlt' | Heq]; [| exact Heq].
          rewrite (key_ltb_asym _ _ Hlt) in Hlt'. discriminate. }
      subst l. destruct (lower r) as [l |]; [| discriminate].
      simpl in Hl. destruct (key_truthy l); [exact Hl | discriminate].
Qed.

Lemma reopen_range_after_last_key_witness :
  exists kr',
    effective_keyRange
      (Options (Some (Range (Some (KNum 1)) (Some (KNum 9)) false false))
               (Some prevunique) None)
      (Some (KNum 4)) = inr kr'
    /\ in_keyRange kr' (KNum 3) = true
    /\ effective_keyRange
         (Options (Some (Range (Some (KNum 1)) (Some (KNum 9)) false false))
                  (Some prevunique) None)
         (Some (KNum 1)) = inl DataError.
Proof.
  destruct (reopen_range_after_last_key
              (Options (Some (Range (Some (KNum 1)) (Some (KNum 9)) false false))
                       (Some prevunique) None)
              (Some (bound (KNum 1) (KNum 9) false false)) (KNum 4))
    as [Hbuilt _]; [reflexivity | reflexivity |].
  destruct (reopen_range_after_last_key
              (Options (Some (Range (Some (KNum 1)) (Some (KNum 9)) false false))
                       (Some prevunique) None)
              (Some (bound (KNum 1) (KNum 9) false false)) (KNum 1))
    as [_ Hrefused]; [reflexivity | reflexivity |].
  eexists. split; [reflexivity |]. split.
  - destruct (Hbuilt _ eq_refl) as [_ H]. rewrite H.
    + reflexivity.
    + simpl. discriminate.
    + reflexivity.
  - destruct Hrefused as [[_ H] _].
    + simpl. discriminate.
    + reflexivity.
    + apply H. reflexivity.
Defined.

(** ** Nothing outside the first range *)

Lemma within_error (s : objectStore) (o : options) (kr0 : option IDBKeyRange)
    (a : adapter) (e : error) :
  within s o kr0 a -> within s o kr0 (emit (Error e) a).
Proof.
  intros (Htx & Ho & Hrec & Hcur & Hlast).
  split; [exact Htx |]. split; [exact Ho |]. split; [| split; assumption].
  rewrite records_emit. simpl. rewrite app_nil_r. exact Hrec.
Qed.

Lemma proceed_within (s : objectStore) (o : options)
    (kr0 : option IDBKeyRange) (a : adapter)
    (c : list record) (adv : advance) :
  effective_keyRange o None = inr kr0 ->
  db_transaction (db a) (storeName a) = inr s ->
  opts a = o ->
  Forall (in_first_range s kr0) (records a) ->
  Forall (in_first_range s kr0) c ->
  (forall K, lastIteratedKey a = Some K -> in_keyRange kr0 K = true) ->
  within s o kr0 (proceed c adv a).
Proof.
  intros Hkr0 Htx Ho Hrec Hc Hlast. unfold proceed. destruct adv as [| err].
  - split; [exact Htx |]. split; [exact Ho |]. split; [exact Hrec |].
    split; [| exact Hlast]. simpl.
    destruct c as [| r c]; [constructor |].
    apply Forall_cons in Hc as [_ Hc]. exact Hc.
  - destruct (_ && _).
    + unfold startCursor. cbn [opts lastIteratedKey db storeName log].
      destruct (effective_keyRange (opts a) (lastIteratedKey a))
        as [e | kr'] eqn:Hkr'.
      * split; [exact Htx |]. split; [exact Ho |]. split; [exact Hrec |].
        split; [exact I | exact Hlast].
      * rewrite Htx. simpl.
        split; [exact Htx |]. split; [exact Ho |]. split; [exact Hrec |].
        split; [| exact Hlast]. simpl.
        apply Forall_forall. intros r Hr.
        apply openCursor_elem in Hr as [Hs Hin].
        split; [exact Hs |]. rewrite Ho in Hkr'.
        exact (reopen_subset o kr0 kr' (lastIteratedKey a) (rec_key r)
                 Hkr0 Hkr' Hlast Hin).
    + split; [exact Htx |]. split; [exact Ho |]. split; [| split].
      * change (Forall (in_first_range s kr0)
                  (records (emit (Error err) (log Continue a)))).
        rewrite records_emit. simpl. rewrite app_nil_r. exact Hrec.
      * exact I.
      * exact Hlast.
Qed.

Lemma within_step (s : objectStore) (o : options) (kr0 : option IDBKeyRange)
    (a : adapter) (ev : event) :
  effective_keyRange o None = inr kr0 ->
  within s o kr0 a -> within s o kr0 (step a ev).
Proof.
  intros Hkr0 Hin.
  destruct ev as [w adv | adv | e | e]; simpl;
    [| | apply within_error, Hin | apply within_error, Hin].
  - destruct (waiting a) as [[| r c] | c |] eqn:Hw; try exact Hin.
    + destruct Hin as (Htx & Ho & Hrec & Hcur & Hlast).
      split; [exact Htx |]. split; [exact Ho |]. split; [| split].
      * change (Forall (in_first_range s kr0) (records (emit End a))).
        rewrite records_emit. simpl. rewrite app_nil_r. exact Hrec.
      * exact I.
      * exact Hlast.
    + destruct Hin as (Htx & Ho & Hrec & Hcur & Hlast).
      rewrite Hw in Hcur. unfold onsuccess.
      pose proof Hcur as Hcur'. apply Forall_cons in Hcur' as [Hr _].
      set (b := emit (Data r) (set_lastIteratedKey (Some (rec_key r)) a)).
      assert (Hb : Forall (in_first_range s kr0) (records b)).
      { unfold b. rewrite records_emit. simpl.
        apply Forall_app. split; [exact Hrec | repeat constructor; apply Hr]. }
      assert (Hbl : forall K, lastIteratedKey b = Some K ->
                in_keyRange kr0 K = true).
      { simpl. intros K HK. injection HK as <-. apply Hr. }
      destruct w.
      * apply proceed_within; assumption.
      * split; [exact Htx |]. split; [exact Ho |]. split; [exact Hb |].
        split; [exact Hcur | exact Hbl].
  - destruct (waiting a) as [c | c |] eqn:Hw; try exact Hin.
    destruct Hin as (Htx & Ho & Hrec & Hcur & Hlast).
    rewrite Hw in Hcur. apply proceed_within; assumption.
Qed.

Lemma within_run (s : objectStore) (o : options) (kr0 : option IDBKeyRange)
    (es : list event) (a : adapter) :
  effective_keyRange o None = inr kr0 ->
  within s o kr0 a -> within s o kr0 (run a es).
Proof.
  intros Hkr0. revert a.
  induction es as [| ev es IH]; intros a Hin; simpl; [exact Hin |].
  apply IH, within_step; assumption.
Qed.

(** X10. Whatever the store, the range, the direction and the course of
    events (timeouts and re-openings included), every record the consumer is
    handed is a record of the store whose key lies in the range of the first
    cursor: a re-opening never reaches outside the configured range. *)
Theorem records_stay_in_first_range
    (dbv sn ov : value) (a0 : adapter) (s : objectStore) (es : list event) :
  idbReadableStream dbv sn ov = Returned a0 ->
  db_transaction (db a0) (storeName a0) = inr s ->
  exists kr0,
    effective_keyRange (opts a0) None = inr kr0
    /\ forall r,
         r ∈ records (run a0 es) ->
         r ∈ s /\ in_keyRange kr0 (rec_key r) = true.
Proof.
  intros Hret Htx.
  destruct (returned_shape _ _ _ _ Hret)
    as (_ & _ & _ & kr0 & s' & Hkr & Htx' & Ha0).
  cbv zeta in Ha0.
  assert (Hkr0 : effective_keyRange (opts a0) None = inr kr0).
  { rewrite Ha0. cbn [opts]. rewrite effective_keyRange_xtend. exact Hkr. }
  exists kr0. split; [exact Hkr0 |]. intros r Hr.
  assert (H0 : within s (opts a0) kr0 a0).
  { rewrite Ha0 in Htx |- *. cbn [db storeName opts] in Htx |- *.
    rewrite Htx' in Htx. injection Htx as ->.
    split; [exact Htx' |]. split; [reflexivity |].
    split; [constructor |]. split; [| discriminate].
    simpl. apply Forall_forall. intros x Hx.
    apply openCursor_elem in Hx. exact Hx. }
  destruct (within_run s (opts a0) kr0 es a0 Hkr0 H0) as (_ & _ & Hrec & _).
  rewrite Forall_forall in Hrec. exact (Hrec r Hr).
Qed.

Lemma records_stay_in_first_range_witness :
  exists a0,
    store_stream (items "a" "b" "c" "d" "e")
                 (Options (Some (Range None (Some (KNum 4)) false false))
                          (Some nextunique) None) = Some a0
    /\ forall r,
         r ∈ records
               (run a0 [Success true Advanced; Success true Advanced;
                        Success true (Raised TransactionInactiveError);
                        Success true Advanced]) ->
         in_keyRange (Some (upperBound (KNum 4) false)) (rec_key r) = true.
Proof.
  destruct (store_stream _ _) as [a0 |] eqn:H;
    [| vm_compute in H; discriminate].
  exists a0. split; [reflexivity |].
  unfold store_stream in H.
  destruct (idbReadableStream _ _ _) as [e made | a1] eqn:Hret;
    [discriminate |].
  injection H as ->. intros r Hr.
  assert (Htx : db_transaction (db a0) (storeName a0)
                = inr (items "a" "b" "c" "d" "e")).
  { vm_compute in Hret. injection Hret as <-. vm_compute. reflexivity. }
  destruct (records_stay_in_first_range _ _ _ a0 _
              [Success true Advanced; Success true Advanced;
               Success true (Raised TransactionInactiveError);
               Success true Advanced] Hret Htx)
    as (kr0 & Hkr0 & Hall).
  destruct (Hall r Hr) as [_ Hin].
  vm_compute in Hret. injection Hret as <-.
  vm_compute in Hkr0. injection Hkr0 as <-. exact Hin.
Defined.

(** ** Order of the keys handed over *)

Lemma StronglySorted_irrefl_NoDup {A : Type} (R : A -> A -> Prop)
    (l : list A) :
  (forall x, ~ R x x) -> StronglySorted R l -> NoDup l.
Proof.
  intros Hirr. induction 1 as [| x l Hl IH Hx]; [constructor |].
  constructor; [| exact IH].
  intros Hin. rewrite Forall_forall in Hx. exact (Hirr x (Hx x Hin)).
Qed.

Lemma sorted_keys (bw : bool) (l : list record) :
  StronglySorted
    (fun r1 r2 => before bw (rec_key r1) (rec_key r2) = true) l ->
  StronglySorted (fun k1 k2 => before bw k1 k2 = true) (rec_key <$> l).
Proof.
  induction 1 as [| r l Hl IH Hr]; [constructor |].
  rewrite fmap_cons. constructor; [exact IH |].
  apply Forall_fmap. exact Hr.
Qed.

(** X13. Over a store in ascending key order without falsy keys, and with a
    direction other than ["nextunique"], the keys handed to the consumer
    are in the order of the direction at any time, each strictly after the
    one before it, so that no key is handed over twice, whatever timeouts
    and re-openings happen. *)
Theorem resumed_stream_keys_in_order
    (dbv sn ov : value) (a0 : adapter) (s : objectStore) (es : list event) :
  idbReadableStream dbv sn ov = Returned a0 ->
  db_transaction (db a0) (storeName a0) = inr s ->
  store_sorted s ->
  Forall (fun r => key_truthy (rec_key r) = true) s ->
  opt_direction (opts a0) <> Some nextunique ->
  StronglySorted
    (fun k1 k2 =>
       before (backward (default next (opt_direction (opts a0)))) k1 k2 = true)
    (keys_emitted (run a0 es))
  /\ NoDup (keys_emitted (run a0 es)).
Proof.
  intros Hret Htx Hsorted Htruthy Hdir.
  destruct (returned_resume_inv _ _ _ _ Hret) as (kr0 & s' & Hkr0 & Htx' & Hinv).
  rewrite Htx' in Htx. injection Htx as ->.
  pose proof (resume_run s (opts a0) kr0 Hkr0 Hsorted Htruthy Hdir es a0 Hinv)
    as Hrun.
  destruct (resume_inv_records s (opts a0) kr0 _ Hrun) as [[rest Hfull] _].
  pose proof (openCursor_sorted s kr0 (opt_direction (opts a0)) Hsorted)
    as Hs.
  rewrite Hfull in Hs. apply StronglySorted_app_1_l in Hs.
  assert (Hk : StronglySorted
                 (fun k1 k2 =>
                    before (backward (default next (opt_direction (opts a0))))
                           k1 k2 = true)
                 (keys_emitted (run a0 es))).
  { unfold keys_emitted. apply sorted_keys, Hs. }
  split; [exact Hk |].
  apply (StronglySorted_irrefl_NoDup _ _) with (2 := Hk).
  intros k Hkk. rewrite before_irrefl in Hkk. discriminate.
Qed.

Lemma resumed_stream_keys_in_order_witness :
  exists a0,
    store_stream (items "a" "b" "c" "d" "e")
                 (Options None (Some prevunique) None) = Some a0
    /\ NoDup (keys_emitted
                (run a0 [Success false Advanced;
                         Drain (Raised TransactionInactiveError);
                         Success true (Raised TransactionInactiveError);
                         Success true Advanced])).
Proof.
  destruct (store_stream _ _) as [a0 |] eqn:H;
    [| vm_compute in H; discriminate].
  exists a0. split; [reflexivity |].
  unfold store_stream in H.
  destruct (idbReadableStream _ _ _) as [e made | a1] eqn:Hret;
    [discriminate |].
  injection H as ->.
  refine (proj2 (resumed_stream_keys_in_order _ _ _ a0
                   (items "a" "b" "c" "d" "e") _ Hret _ _ _ _)).
  - vm_compute in Hret. injection Hret as <-. vm_compute. reflexivity.
  - unfold store_sorted, items. repeat constructor.
  - unfold items. repeat constructor.
  - vm_compute in Hret. injection Hret as <-. simpl. discriminate.
Defined.

(** ** Runs without timeouts, in general *)

(** X14. Without timeouts and failures, whatever the store, the range and
    the direction, and however the buffer fills and drains: one cursor is
    opened; at any time the consumer has been handed a front part of the
    records of that cursor, in cursor order; and once nothing is pending,
    it has been handed all of them followed by the end, and nothing else. *)
Theorem timeout_free_stream_hands_over_first_cursor
    (dbv sn ov : value) (a0 : adapter) (kr0 : option IDBKeyRange)
    (s : objectStore) (es : list event) :
  idbReadableStream dbv sn ov = Returned a0 ->
  effective_keyRange (opts a0) None = inr kr0 ->
  db_transaction (db a0) (storeName a0) = inr s ->
  Forall calm es ->
  let full := openCursor s kr0 (opt_direction (opts a0)) in
  cursorsOpened (run a0 es) = 1%nat
  /\ emitted (run a0 es) `prefix_of` (Data <$> full) ++ [End]
  /\ (waiting (run a0 es) = Idle ->
      emitted (run a0 es) = (Data <$> full) ++ [End]).
Proof.
  intros Hret Hkr0 Htx Hes full.
  destruct (calm_stream _ _ _ a0 es Hret Hes)
    as (kr & s' & Hkr & Htx' & Hn & Hinv).
  rewrite Htx' in Htx. injection Htx as ->.
  rewrite Hkr in Hkr0. injection Hkr0 as ->. fold full in Hinv.
  split; [exact Hn |].
  destruct (waiting (run a0 es)) as [c | c |] eqn:Hw.
  - destruct Hinv as (done & Hem & Hfull). split; [| discriminate].
    rewrite Hem, <- Hfull, fmap_app, <- app_assoc.
    apply prefix_app_r. reflexivity.
  - destruct Hinv as (done & Hem & _ & Hfull). split; [| discriminate].
    rewrite Hem, <- Hfull, fmap_app, <- app_assoc.
    apply prefix_app_r. reflexivity.
  - split; [rewrite Hinv; reflexivity | intros _; exact Hinv].
Qed.

Lemma timeout_free_stream_hands_over_first_cursor_witness :
  exists a0,
    store_stream (items "a" "b" "c" "d" "e")
                 (Options (Some (Range (Some (KNum 4)) None false false))
                          (Some prev) None) = Some a0
    /\ emitted (run a0 [Success false Advanced; Drain Advanced;
                        Success true Advanced; Success true Advanced])
       = [Data (Rec (KNum 5) "e"); Data (Rec (KNum 4) "d"); End].
Proof.
  destruct (store_stream _ _) as [a0 |] eqn:H;
    [| vm_compute in H; discriminate].
  exists a0. split; [reflexivity |].
  unfold store_stream in H.
  destruct (idbReadableStream _ _ _) as [e made | a1] eqn:Hret;
    [discriminate |].
  injection H as ->.
  assert (Htx : db_transaction (db a0) (storeName a0)
                = inr (items "a" "b" "c" "d" "e")).
  { vm_compute in Hret. injection Hret as <-. vm_compute. reflexivity. }
  assert (Hkr : effective_keyRange (opts a0) None
                = inr (Some (lowerBound (KNum 4) false))).
  { vm_compute in Hret. injection Hret as <-. vm_compute. reflexivity. }
  destruct (timeout_free_stream_hands_over_first_cursor _ _ _ a0 _ _
              [Success false Advanced; Drain Advanced;
               Success true Advanced; Success true Advanced] Hret Hkr Htx)
    as (_ & _ & Hall).
  - repeat constructor.
  - rewrite Hall.
    + vm_compute in Hret. injection Hret as <-. vm_compute. reflexivity.
    + vm_compute in Hret. injection Hret as <-. vm_compute. reflexivity.
Defined.

(** X15. When the first cursor has nothing to visit (an empty store, or no
    key in the range), the first success ends the stream: the consumer gets
    the end and nothing else, [continue] is never called, and nothing is
    pending afterwards. *)
Theorem empty_range_ends_at_once
    (dbv sn ov : value) (a0 : adapter) (kr0 : option IDBKeyRange)
    (s : objectStore) (accepted : bool) (adv : advance) :
  idbReadableStream dbv sn ov = Returned a0 ->
  effective_keyRange (opts a0) None = inr kr0 ->
  db_transaction (db a0) (storeName a0) = inr s ->
  (forall r, r ∈ s -> in_keyRange kr0 (rec_key r) = false) ->
  let a := step a0 (Success accepted adv) in
  emitted a = [End]
  /\ calls a = calls a0
  /\ advances a = 0%nat
  /\ cursorsOpened a = 1%nat
  /\ waiting a = Idle
  /\ stream_over a.
Proof.
  intros Hret Hkr0 Htx Hnone a.
  destruct (returned_shape _ _ _ _ Hret)
    as (_ & _ & _ & kr & s' & Hkr & Htx' & Ha0).
  cbv zeta in Ha0.
  assert (Hs : s' = s /\ kr = kr0).
  { rewrite Ha0 in Htx, Hkr0. cbn [db storeName opts] in Htx, Hkr0.
    rewrite Htx' in Htx. rewrite effective_keyRange_xtend, Hkr in Hkr0.
    injection Htx as ->. injection Hkr0 as ->. auto. }
  destruct Hs as [-> ->].
  assert (Hempty : forall d, openCursor s kr0 d = []).
  { intros d. destruct (openCursor s kr0 d) as [| r l] eqn:Hc; [reflexivity |].
    assert (Hr : r ∈ openCursor s kr0 d) by (rewrite Hc; left).
    apply openCursor_elem in Hr as [Hin Hrange].
    rewrite (Hnone r Hin) in Hrange. discriminate. }
  subst a. rewrite Ha0. simpl. rewrite Hempty. simpl.
  repeat (split; [reflexivity |]).
  apply idle_stream_over. reflexivity.
Qed.

Lemma empty_range_ends_at_once_witness :
  exists a0,
    store_stream (items "a" "b" "c" "d" "e")
                 (Options (Some (Range (Some (KNum 7)) None false false))
                          None None) = Some a0
    /\ emitted (step a0 (Success true (Raised TransactionInactiveError)))
       = [End].
Proof.
  destruct (store_stream _ _) as [a0 |] eqn:H;
    [| vm_compute in H; discriminate].
  exists a0. split; [reflexivity |].
  unfold store_stream in H.
  destruct (idbReadableStream _ _ _) as [e made | a1] eqn:Hret;
    [discriminate |].
  injection H as ->.
  refine (proj1 (empty_range_ends_at_once _ _ _ a0
                   (Some (lowerBound (KNum 7) false))
                   (items "a" "b" "c" "d" "e") _ _ Hret _ _ _)).
  - vm_compute in Hret. injection Hret as <-. vm_compute. reflexivity.
  - vm_compute in Hret. injection Hret as <-. vm_compute. reflexivity.
  - intros r Hr. unfold items in Hr.
    repeat (apply elem_of_cons in Hr as [-> | Hr]; [reflexivity |]).
    apply elem_of_nil in Hr. contradiction.
Defined.

(** ** Streams that do not re-open *)

Lemma not_end_snoc (l : list signal) (x : signal) :
  x <> End -> End ∉ l -> End ∉ l ++ [x].
Proof.
  intros Hx Hl Hin. apply elem_of_app in Hin as [Hin | Hin]; [exact (Hl Hin) |].
  apply list_elem_of_singleton in Hin. congruence.
Qed.

Lemma proceed_one_cursor (full : list record) (c : list record)
    (adv : advance) (a : adapter) :
  cursorsOpened a = 1%nat ->
  reopenOnTimeout a = false ->
  records a ++ tail c = full ->
  End ∉ emitted a ->
  one_cursor full (proceed c adv a).
Proof.
  intros Hn Hre Hfull Hend. unfold proceed.
  destruct adv as [| err].
  - split; [exact Hn |]. split; [exact Hre |]. split; [| split].
    + exists (tail c). symmetry. exact Hfull.
    + intros _. split; [exact Hfull | exact Hend].
    + intros Hin. contradiction.
  - change (reopenOnTimeout (log Continue a)) with (reopenOnTimeout a).
    rewrite Hre, andb_false_r.
    split; [exact Hn |]. split; [exact Hre |].
    assert (Hrec : records (set_waiting Idle (emit (Error err) (log Continue a)))
                   = records a).
    { change (records (emit (Error err) (log Continue a)) = records a).
      rewrite records_emit. simpl. apply app_nil_r. }
    rewrite Hrec. split; [| split].
    + exists (tail c). symmetry. exact Hfull.
    + intros H. contradiction.
    + intros Hin. exfalso. revert Hin. apply not_end_snoc; [discriminate |].
      exact Hend.
Qed.

Lemma one_cursor_step (full : list record) (a : adapter) (ev : event) :
  one_cursor full a -> one_cursor full (step a ev).
Proof.
  intros Hinv. pose proof Hinv as (Hn & Hre & Hpre & Hpend & Hdone).
  assert (Herr : forall e, one_cursor full (emit (Error e) a)).
  { intros e. split; [exact Hn |]. split; [exact Hre |].
    assert (Hrec : records (emit (Error e) a) = records a).
    { rewrite records_emit. simpl. apply app_nil_r. }
    rewrite Hrec. split; [exact Hpre |]. split.
    - intros Hw. destruct (Hpend Hw) as [Hfull Hend].
      split; [exact Hfull |]. apply not_end_snoc; [discriminate | exact Hend].
    - simpl. intros Hin. apply Hdone.
      apply elem_of_app in Hin as [Hin | Hin]; [exact Hin |].
      apply list_elem_of_singleton in Hin. discriminate. }
  destruct ev as [w adv | adv | e | e]; simpl; [| | apply Herr | apply Herr].
  - destruct (waiting a) as [[| r c] | c |] eqn:Hw; try exact Hinv.
    + destruct Hpend as [Hfull Hend]; [rewrite ?Hw; discriminate |].
      unfold cursor_ahead in Hfull. rewrite Hw, app_nil_r in Hfull.
      assert (Hrec : records (set_waiting Idle (emit End a)) = records a).
      { change (records (emit End a) = records a).
        rewrite records_emit. simpl. apply app_nil_r. }
      change (onsuccess [] w adv a) with (set_waiting Idle (emit End a)).
      split; [exact Hn |]. split; [exact Hre |]. rewrite Hrec.
      split; [exact Hpre |]. split; [intros H; contradiction |].
      intros _. exact Hfull.
    + destruct Hpend as [Hfull Hend]; [rewrite ?Hw; discriminate |].
      unfold cursor_ahead in Hfull. rewrite Hw in Hfull.
      unfold onsuccess.
      set (b := emit (Data r) (set_lastIteratedKey (Some (rec_key r)) a)).
      assert (Hb : records b = records a ++ [r]).
      { unfold b. rewrite records_emit. reflexivity. }
      assert (Hbe : End ∉ emitted b).
      { apply not_end_snoc; [discriminate | exact Hend]. }
      assert (Hbf : records b ++ c = full).
      { rewrite Hb, <- app_assoc. exact Hfull. }
      destruct w.
      * apply proceed_one_cursor; assumption.
      * split; [exact Hn |]. split; [exact Hre |].
        change (records (set_waiting (AwaitDrain (r :: c)) b))
          with (records b).
        split; [exists c; symmetry; exact Hbf |]. split.
        -- intros _. split; [exact Hbf | exact Hbe].
        -- intros Hin. contradiction.
  - destruct (waiting a) as [c | c |] eqn:Hw; try exact Hinv.
    destruct Hpend as [Hfull Hend]; [rewrite ?Hw; discriminate |].
    unfold cursor_ahead in Hfull. rewrite Hw in Hfull.
    apply proceed_one_cursor; assumption.
Qed.

Lemma one_cursor_run (full : list record) (es : list event) (a : adapter) :
  one_cursor full a -> one_cursor full (run a es).
Proof.
  revert a. induction es as [| ev es IH]; intros a Ha; simpl; [exact Ha |].
  apply IH, one_cursor_step, Ha.
Qed.

(** X17. With [reopenOnTimeout] given as [false], whatever the store, the
    range and the direction: one cursor is opened and never another; the
    records handed to the consumer are at any time a front part of the
    records of that cursor, in cursor order; and if the end is signalled,
    they are all of them. *)
Theorem no_reopen_single_cursor
    (dbv sn ov : value) (a0 : adapter) (kr0 : option IDBKeyRange)
    (s : objectStore) (es : list event) :
  idbReadableStream dbv sn ov = Returned a0 ->
  opt_reopenOnTimeout (given_options ov) = Some false ->
  effective_keyRange (opts a0) None = inr kr0 ->
  db_transaction (db a0) (storeName a0) = inr s ->
  let full := openCursor s kr0 (opt_direction (opts a0)) in
  cursorsOpened (run a0 es) = 1%nat
  /\ transactions (run a0 es) = 1%nat
  /\ records (run a0 es) `prefix_of` full
  /\ (End ∈ emitted (run a0 es) -> records (run a0 es) = full).
Proof.
  intros Hret Hfalse Hkr0 Htx full.
  assert (H0 : one_cursor full a0).
  { destruct (returned_shape _ _ _ _ Hret)
      as (_ & _ & _ & kr & s' & Hkr & Htx' & Ha0).
    cbv zeta in Ha0.
    subst full. rewrite Ha0 in Htx, Hkr0 |- *.
    cbn [db storeName opts] in Htx, Hkr0 |- *.
    rewrite Htx' in Htx. injection Htx as ->.
    rewrite effective_keyRange_xtend, Hkr in Hkr0. injection Hkr0 as ->.
    split; [reflexivity |]. split.
    { unfold reopenOnTimeout. cbn [opts].
      rewrite xtend_default_options. simpl. rewrite Hfalse. reflexivity. }
    split; [apply prefix_nil |]. split.
    - intros _. split; [reflexivity | apply not_elem_of_nil].
    - intros Hin. apply elem_of_nil in Hin. contradiction. }
  destruct (one_cursor_run full es a0 H0) as (Hn & _ & Hpre & _ & Hdone).
  destruct (accounted_stream _ _ _ _ es Hret) as (Hcount & _).
  split; [exact Hn |]. split; [rewrite <- Hcount; exact Hn |].
  split; [exact Hpre | exact Hdone].
Qed.

Lemma no_reopen_single_cursor_witness :
  exists a0,
    store_stream [Rec (KNum 0) "z"; Rec (KNum 1) "a"]
                 (Options None (Some nextunique) (Some false)) = Some a0
    /\ cursorsOpened
         (run a0 [Success true Advanced;
                  Success true (Raised TransactionInactiveError);
                  Success true Advanced; Drain Advanced]) = 1%nat.
Proof.
  destruct (store_stream _ _) as [a0 |] eqn:H;
    [| vm_compute in H; discriminate].
  exists a0. split; [reflexivity |].
  unfold store_stream in H.
  destruct (idbReadableStream _ _ _) as [e made | a1] eqn:Hret;
    [discriminate |].
  injection H as ->.
  refine (proj1 (no_reopen_single_cursor _ _ _ a0 None
                   [Rec (KNum 0) "z"; Rec (KNum 1) "a"] _ Hret _ _ _)).
  - reflexivity.
  - vm_compute in Hret. injection Hret as <-. vm_compute. reflexivity.
  - vm_compute in Hret. injection Hret as <-. vm_compute. reflexivity.
Defined.
